(** * Jellyfin "now showing" e-mail script: a shallow embedding

    The development follows [sanitized_jellyfin_script.py]: the listing
    fetcher [get_latest_items], the image cache [get_cached_image] and the
    composer and dispatcher that make up [send_jellyfin_email].

    Python's effects (HTTP requests, the file system, the SMTP session,
    [print]) are threaded through a state-and-exception monad over a
    [World]; the world keeps a trace of the effects performed. *)

From Stdlib Require Import ZArith.
From Stdlib.Strings Require Import Byte.
From stdpp Require Import gmap strings list.

Local Open Scope string_scope.
Local Open Scope Z_scope.

(** ** Python text

    [str] is [string]; [bytes] is a list of bytes. *)

Definition bytes := list Byte.byte.

#[export] Instance byte_eq_dec : EqDecision Byte.byte := Byte.byte_eq_dec.

(** The double quote and the line feed, for the script's literals. *)
Definition dq : string := String (Ascii.ascii_of_nat 34) EmptyString.
Definition nl : string := String (Ascii.ascii_of_nat 10) EmptyString.

Module Str.

(** [s.startswith(p)] *)
Fixpoint startswith (p s : string) : bool :=
  match p, s with
  | EmptyString, _ => true
  | String a p', String b s' => if Ascii.eqb a b then startswith p' s' else false
  | String _ _, EmptyString => false
  end.

(** [p in s], for text operands. *)
Fixpoint contains (p s : string) : bool :=
  startswith p s ||
  match s with
  | EmptyString => false
  | String _ s' => contains p s'
  end.

(** [s.split(sep)] for a separator that is not empty (Python raises
    [ValueError] on an empty one; the script only splits on constants).
    [skip] counts the characters of a separator just matched that are
    still to be passed over, [cur] is the piece being collected. *)
Fixpoint split_from (sep : string) (skip : nat) (cur s : string) : list string :=
  match s with
  | EmptyString => [cur]
  | String c s' =>
      match skip with
      | S k => split_from sep k cur s'
      | O =>
          if startswith sep s
          then cur :: split_from sep (String.length sep - 1) EmptyString s'
          else split_from sep 0 (cur +:+ String c EmptyString) s'
      end
  end.

Definition split (sep s : string) : list string := split_from sep 0 EmptyString s.

(** [sep.join(l)] *)
Fixpoint join (sep : string) (l : list string) : string :=
  match l with
  | [] => EmptyString
  | [x] => x
  | x :: l' => x +:+ sep +:+ join sep l'
  end.

(** The text before the first occurrence of [sep] (all of it when there
    is none); it serves to state what [split] yields first. *)
Fixpoint before (sep s : string) : string :=
  if startswith sep s then EmptyString
  else match s with
       | EmptyString => EmptyString
       | String c s' => String c (before sep s')
       end.

(** Truth value of a text: only the empty one is false. *)
Definition truthy (s : string) : bool :=
  match s with EmptyString => false | String _ _ => true end.

End Str.

(** [os.path.join(a, b)] on a POSIX system, for two components: an absolute
    [b] replaces [a]. *)
Definition os_path_join (a b : string) : string :=
  if Str.startswith "/" b then b
  else match a with
       | EmptyString => b
       | _ => if Str.startswith "/" (String.rev a) then a +:+ b else a +:+ "/" +:+ b
       end.

(** ** The HTML literals of [send_jellyfin_email] *)

Module Html.

(** Lines 104-112: the opening of the document, with the web URL filled
    in by [format]. *)
Definition head (web_url : string) : string :=
  nl +:+
  "    <html>" +:+ nl +:+
  "    <body style=" +:+ dq +:+ "font-family: Arial, sans-serif; background-color: #f4f4f4; margin: 0; padding: 20px;" +:+ dq +:+ ">" +:+ nl +:+
  "        <div style=" +:+ dq +:+ "max-width: 600px; margin: 0 auto; background-color: white; padding: 20px; border-radius: 10px;" +:+ dq +:+ ">" +:+ nl +:+
  "            <h1 style=" +:+ dq +:+ "color: #333; text-align: center;" +:+ dq +:+ ">New Content on Jellyfin!</h1>" +:+ nl +:+
  "            <p style=" +:+ dq +:+ "text-align: center; margin-bottom: 30px;" +:+ dq +:+ ">" +:+ nl +:+
  "                <a href=" +:+ dq +:+ web_url +:+ dq +:+ " style=" +:+ dq +:+ "color: #007bff; text-decoration: none;" +:+ dq +:+ ">Open Jellyfin</a>" +:+ nl +:+
  "            </p>" +:+ nl +:+
  "    ".

(** Lines 151-154: an item's block opens. *)
Definition block_open : string :=
  nl +:+
  "        <div style=" +:+ dq +:+ "margin-bottom: 30px; padding: 15px; border: 1px solid #ddd; border-radius: 8px;" +:+ dq +:+ ">" +:+ nl +:+
  "            <div style=" +:+ dq +:+ "display: flex; gap: 15px; align-items: flex-start;" +:+ dq +:+ ">" +:+ nl +:+
  "        ".

(** Lines 157-161: the poster, when there is one. *)
Definition block_poster (poster_cid title : string) : string :=
  nl +:+
  "                <div style=" +:+ dq +:+ "flex-shrink: 0;" +:+ dq +:+ ">" +:+ nl +:+
  "                    <img src=" +:+ dq +:+ "cid:" +:+ poster_cid +:+ dq +:+ " alt=" +:+ dq +:+ "Poster for " +:+ title +:+ dq +:+ " style=" +:+ dq +:+ "max-width: 150px; border-radius: 8px;" +:+ dq +:+ ">" +:+ nl +:+
  "                </div>" +:+ nl +:+
  "            ".

(** Lines 163-167: title and type. The literal is cut at its two
    placeholders. *)
Definition text_lead : string :=
  nl +:+
  "                <div style=" +:+ dq +:+ "flex-grow: 1;" +:+ dq +:+ ">" +:+ nl +:+
  "                    <h3 style=" +:+ dq +:+ "margin: 0 0 10px 0; color: #333;" +:+ dq +:+ ">".

Definition text_mid : string :=
  "</h3>" +:+ nl +:+
  "                    <p style=" +:+ dq +:+ "margin: 0 0 10px 0; color: #666; font-size: 14px;" +:+ dq +:+ ">Type: ".

Definition text_trail : string :=
  "</p>" +:+ nl +:+
  "        ".

Definition block_text (title item_type : string) : string :=
  text_lead +:+ title +:+ text_mid +:+ item_type +:+ text_trail.

(** Lines 170-172: the logo, when there is one. *)
Definition block_logo (logo_cid title : string) : string :=
  nl +:+
  "                    <img src=" +:+ dq +:+ "cid:" +:+ logo_cid +:+ dq +:+ " alt=" +:+ dq +:+ "Logo for " +:+ title +:+ dq +:+ " style=" +:+ dq +:+ "max-width: 200px; margin-top: 10px;" +:+ dq +:+ ">" +:+ nl +:+
  "            ".

(** Lines 174-178: the block closes. *)
Definition block_close : string :=
  nl +:+
  "                </div>" +:+ nl +:+
  "            </div>" +:+ nl +:+
  "        </div>" +:+ nl +:+
  "        ".

(** Lines 180-184: the document closes. *)
Definition tail : string :=
  nl +:+
  "        </div>" +:+ nl +:+
  "    </body>" +:+ nl +:+
  "    </html>" +:+ nl +:+
  "    ".

(** What lines 151-178 append for one item, given the content identifiers
    of the images obtained. *)
Definition block (poster_cid logo_cid : option string) (title item_type : string) : string :=
  block_open
  +:+ match poster_cid with Some cid => block_poster cid title | None => EmptyString end
  +:+ block_text title item_type
  +:+ match logo_cid with Some cid => block_logo cid title | None => EmptyString end
  +:+ block_close.

End Html.

(** ** Data *)

(** An item of the listing: a JSON object, read with [item.get(key)].
    The fields the script reads ([Id], [Name], [Type]) are texts in the
    server's answers, so an item maps field names to texts. *)
Abbreviation Item := (gmap string string).

(** What [response.json()] decodes: a list of items, or some other JSON
    value (an object, a number, a text, a boolean, null), of which the
    script only ever tests the truth value before it fails on it. *)
Inductive payload :=
| JList (items : list Item)
| JOther (truth : bool).

Definition payload_truthy (p : payload) : bool :=
  match p with
  | JList items => match items with [] => false | _ :: _ => true end
  | JOther truth => truth
  end.

Abbreviation Headers := (list (string * string)).

Record Response := {
  status_code : Z;
  content : bytes;             (* [r.content] *)
  json : option payload        (* [r.json()], [None] when decoding raises *)
}.

Inductive http_outcome :=
| Failed (why : string)        (* connection error, timeout, ... *)
| Responded (r : Response).

Inductive smtp_stage := Connect | Starttls | Login | Sendmail.

#[export] Instance smtp_stage_eq_dec : EqDecision smtp_stage.
Proof. solve_decision. Defined.

Inductive exn :=
| RequestException (why : string)
| HTTPError (status : Z)
| JSONDecodeError
| OSError (path : string)
| TypeError (why : string)
| SMTPException (stage : smtp_stage).

(** An inline image of the message: the [Content-ID] header, the subtype
    [MIMEImage] guessed and the data. *)
Record ImagePart := {
  content_id : string;
  subtype : string;
  data : bytes
}.

(** The message handed to [sendmail]: [msg_root] with its headers, the HTML
    alternative and the images attached. *)
Record Message := {
  msg_subject : string;
  msg_from : string;
  msg_to : string;
  msg_html : string;
  msg_images : list ImagePart
}.

(** A path of the file system holds a regular file, which may refuse to be
    read, or a directory. *)
Inductive node :=
| File (data : bytes) (readable : bool)
| Dir.

(** The effects the script performs, as the trace records them. *)
Inductive event :=
| EPrint (text : string)
| EPrintExn (text : string) (e : exn)     (* a message that ends in [{e}] *)
| EGet (url : string) (headers : Headers)
| EExists (path : string)
| EOpenWrite (path : string)
| EOpenRead (path : string)
| ESmtpConnect (host : string) (port : Z)
| ESmtpStarttls
| ESmtpLogin (user password : string)
| ESmtpSendmail (sender : string) (recipients : list string) (msg : Message)
| ESmtpQuit.

Record World := {
  environ : gmap string string;                       (* [os.environ] *)
  fs : gmap string node;
  creatable : string → bool;                          (* may [open(p, "wb")] create [p] *)
  server : nat → string → Headers → http_outcome;     (* the answer to the n-th request *)
  requests_made : nat;
  smtp_failure : option smtp_stage;                   (* where the mail session fails, if it does *)
  trace : list event                                  (* newest first *)
}.

Definition add_event (ev : event) (w : World) : World :=
  {| environ := environ w; fs := fs w; creatable := creatable w; server := server w;
     requests_made := requests_made w; smtp_failure := smtp_failure w;
     trace := ev :: trace w |}.

Definition count_request (w : World) : World :=
  {| environ := environ w; fs := fs w; creatable := creatable w; server := server w;
     requests_made := S (requests_made w); smtp_failure := smtp_failure w;
     trace := trace w |}.

Definition set_fs (f : gmap string node) (w : World) : World :=
  {| environ := environ w; fs := f; creatable := creatable w; server := server w;
     requests_made := requests_made w; smtp_failure := smtp_failure w;
     trace := trace w |}.

(** ** The monad: a world threaded through, and Python's exceptions *)

Inductive outcome (A : Type) :=
| Ret (a : A)
| Raise (e : exn).
Arguments Ret {A} a.
Arguments Raise {A} e.

Definition M (A : Type) : Type := World → World * outcome A.

#[export] Instance M_ret : MRet M := λ A a w, (w, Ret a).
#[export] Instance M_bind : MBind M := λ A B f m w,
  match m w with
  | (w', Ret a) => f a w'
  | (w', Raise e) => (w', Raise e)
  end.

Definition raise {A} (e : exn) : M A := λ w, (w, Raise e).

(** [try: body except Exception as e: handler] *)
Definition try_except {A} (body : M A) (handler : exn → M A) : M A := λ w,
  match body w with
  | (w', Ret a) => (w', Ret a)
  | (w', Raise e) => handler e w'
  end.

(** [try: body finally: cleanup], as a [with] block runs its exit. *)
Definition finally {A} (body : M A) (cleanup : M unit) : M A := λ w,
  match body w with
  | (w', r) =>
      match cleanup w' with
      | (w'', Ret _) => (w'', r)
      | (w'', Raise e) => (w'', Raise e)
      end
  end.

Definition emit (ev : event) : M unit := λ w, (add_event ev w, Ret tt).

Definition print (text : string) : M unit := emit (EPrint text).
Definition print_exn (text : string) (e : exn) : M unit := emit (EPrintExn text e).

(** [os.getenv(name)] *)
Definition os_getenv (name : string) : M (option string) := λ w, (w, Ret (environ w !! name)).

(** [requests.get(url, headers=headers, timeout=10)] *)
Definition requests_get (url : string) (headers : Headers) : M Response := λ w,
  let w' := count_request (add_event (EGet url headers) w) in
  match server w (requests_made w) url headers with
  | Failed why => (w', Raise (RequestException why))
  | Responded r => (w', Ret r)
  end.

(** [r.raise_for_status()]: the library raises for the client and server
    error statuses, 400 to 599, and for no other. *)
Definition http_error (r : Response) : bool :=
  (400 <=? status_code r) && (status_code r <? 600).

Definition raise_for_status (r : Response) : M unit :=
  if http_error r
  then raise (HTTPError (status_code r))
  else mret tt.

(** [r.json()] *)
Definition response_json (r : Response) : M payload :=
  match json r with
  | Some p => mret p
  | None => raise JSONDecodeError
  end.

(** [os.path.exists(path)] *)
Definition os_path_exists (path : string) : M bool := λ w,
  (add_event (EExists path) w, Ret (bool_decide (is_Some (fs w !! path)))).

(** [with open(path, "wb") as f: f.write(data)] *)
Definition write_file (path : string) (d : bytes) : M unit := λ w,
  let w' := add_event (EOpenWrite path) w in
  match fs w !! path with
  | Some Dir => (w', Raise (OSError path))
  | _ =>
      if creatable w path
      then (set_fs (<[path := File d true]> (fs w)) w', Ret tt)
      else (w', Raise (OSError path))
  end.

(** [with open(path, "rb") as f: return f.read()] *)
Definition read_file (path : string) : M bytes := λ w,
  let w' := add_event (EOpenRead path) w in
  match fs w !! path with
  | Some (File d true) => (w', Ret d)
  | _ => (w', Raise (OSError path))
  end.

(** ** Configuration (lines 11-19) *)

Record Globals := {
  JELLYFIN_API_URL : string;
  JELLYFIN_API_TOKEN : string;
  SMTP_SERVER : string;
  SMTP_PORT : Z;
  SENDER_EMAIL : string;
  SENDER_PASSWORD : string;
  RECIPIENT_EMAILS : list string;
  JELLYFIN_WEB_URL : string;
  EMAIL_SUBJECT : string
}.

(** [os.getenv(name, fallback)] at import time. *)
Definition getenv_or (env : gmap string string) (name fallback : string) : string :=
  default fallback (env !! name).

(** The module's globals. [int] is Python's conversion of the port text; it
    is not called when the variable is unset, the default being the number
    587 already. When it raises, the module does not load. *)
Definition load_globals (int : string → option Z) (env : gmap string string) : option Globals :=
  port ← match env !! "SMTP_PORT" with Some s => int s | None => Some 587 end;
  Some {| JELLYFIN_API_URL := getenv_or env "JELLYFIN_API_URL" "http://localhost:8096/Users/{USER_ID}/Items/Latest";
          JELLYFIN_API_TOKEN := getenv_or env "JELLYFIN_API_TOKEN" EmptyString;
          SMTP_SERVER := getenv_or env "SMTP_SERVER" "smtp.gmail.com";
          SMTP_PORT := port;
          SENDER_EMAIL := getenv_or env "SENDER_EMAIL" EmptyString;
          SENDER_PASSWORD := getenv_or env "SENDER_PASSWORD" EmptyString;
          RECIPIENT_EMAILS := Str.split "," (getenv_or env "RECIPIENT_EMAILS" EmptyString);
          JELLYFIN_WEB_URL := getenv_or env "JELLYFIN_WEB_URL" "http://localhost:8096/web/index.html";
          EMAIL_SUBJECT := getenv_or env "EMAIL_SUBJECT" "Now on Jellyfin!" |}.

Definition POSTER_CACHE_DIR : string := "cache/posters".
Definition LOGO_CACHE_DIR : string := "cache/logos".

(** ** [get_latest_items] (lines 30-41) *)

Definition auth_headers (g : Globals) : Headers :=
  [("Authorization", "MediaBrowser Token=" +:+ JELLYFIN_API_TOKEN g)].

Definition get_latest_items (g : Globals) : M payload :=
  try_except
    (response ← requests_get (JELLYFIN_API_URL g) (auth_headers g);
     raise_for_status response;;
     response_json response)
    (λ e, print_exn "Error fetching latest items: " e;;
          mret (JList [])).

(** ** [get_cached_image] (lines 46-66) *)

(** Lines 49-57, the branch taken when the cache file does not exist. The
    result tells whether the function goes on to read the file; [false] is
    the [return None] of the handler. *)
Definition download (url cache_path : string) (headers : Headers) : M bool :=
  try_except
    (print ("Downloading: " +:+ url);;
     r ← requests_get url headers;
     raise_for_status r;;
     write_file cache_path (content r);;
     mret true)
    (λ e, print_exn ("Failed to download " +:+ url +:+ ": ") e;;
          mret false).

Definition get_cached_image (url cache_path : string) (headers : Headers) : M (option bytes) :=
  found ← os_path_exists cache_path;
  go_on ← (if negb found
           then download url cache_path headers
           else print ("Using cached: " +:+ cache_path);; mret true);
  if go_on : bool
  then try_except
         (d ← read_file cache_path; mret (Some d))
         (λ e, print_exn ("Failed to read cached file " +:+ cache_path +:+ ": ") e;;
               mret None)
  else mret None.

(** ** [send_jellyfin_email] (lines 71-197) *)

(** Line 101 *)
Definition jellyfin_base_url (api_url : string) : string :=
  if Str.contains "/Users/" api_url
  then default EmptyString (head (Str.split "/Users/" api_url))
  else "http://localhost:8096".

Definition required_vars : list string :=
  ["JELLYFIN_API_URL"; "JELLYFIN_API_TOKEN"; "SENDER_EMAIL"; "SENDER_PASSWORD"; "RECIPIENT_EMAILS"].

(** [not os.getenv(var)]: unset, or set to the empty text. *)
Definition unset (value : option string) : bool :=
  match value with
  | Some s => negb (Str.truthy s)
  | None => true
  end.

(** Lines 74-77. [false] is the [return] of line 77. *)
Fixpoint validate (vars : list string) : M bool :=
  match vars with
  | [] => mret true
  | var :: rest =>
      value ← os_getenv var;
      if unset value
      then print ("Error: Environment variable " +:+ var +:+ " is required but not set.");;
           mret false
      else validate rest
  end.

(** The state of the loop of lines 114-178: the images attached to
    [msg_root] so far and [html_content]. *)
Definition Composing : Type := list ImagePart * string.

(** Truth value of what [get_cached_image] returned: [None] and the empty
    bytes are false. *)
Definition obtained (image : option bytes) : option bytes :=
  match image with
  | Some (b :: d) => Some (b :: d)
  | _ => None
  end.

(** Lines 190-194: the [with smtplib.SMTP(...)] block. Each command of the
    session is recorded, then raises if the session fails there; leaving
    the block ends the session. *)
Definition smtp_command (stage : smtp_stage) (ev : event) : M unit := λ w,
  (add_event ev w,
   if bool_decide (smtp_failure w = Some stage) then Raise (SMTPException stage) else Ret tt).

Definition smtp_session (g : Globals) (msg : Message) : M unit :=
  smtp_command Connect (ESmtpConnect (SMTP_SERVER g) (SMTP_PORT g));;
  finally
    (smtp_command Starttls ESmtpStarttls;;
     smtp_command Login (ESmtpLogin (SENDER_EMAIL g) (SENDER_PASSWORD g));;
     smtp_command Sendmail (ESmtpSendmail (SENDER_EMAIL g) (RECIPIENT_EMAILS g) msg))
    (emit ESmtpQuit).

(** [for x in l: body], the body updating the loop's state; an exception
    ends the loop. *)
Fixpoint for_each {A S : Type} (body : A → S → M S) (l : list A) (s : S) : M S :=
  match l with
  | [] => mret s
  | x :: l' => s' ← body x s; for_each body l' s'
  end.

Section Script.

(** [email.mime.image]'s guess of the image subtype from the data; when
    it finds none, [MIMEImage(data)] raises a [TypeError]. *)
Variable what : bytes → option string.

(** Lines 137-139 and 146-148: build the part, tag it and attach it. *)
Definition attach_image (root : list ImagePart) (cid : string) (d : bytes) : M (list ImagePart) :=
  match what d with
  | Some sub =>
      mret (root ++ [ {| content_id := "<" +:+ cid +:+ ">"; subtype := sub; data := d |} ])%list
  | None => raise (TypeError "Could not guess image MIME subtype")
  end.

(** Lines 134-139 for the poster and 143-148 for the logo, which are the
    same steps: the identifier stays [None] unless the image was
    obtained, and then the image is attached under it. *)
Definition attach_if_obtained (root : list ImagePart) (cid : string) (image : option bytes)
    : M (list ImagePart * option string) :=
  match obtained image with
  | Some d =>
      root ← attach_image root cid d;
      mret (root, Some cid)
  | None => mret (root, None)
  end.

(** The body of the loop, lines 115-178. *)
Definition process_item (g : Globals) (base_url : string) (item : Item)
    (st : Composing) : M Composing :=
  let '(root, html_content) := st in
  let item_id := item !! "Id" in
  let title := default "Unknown Title" (item !! "Name") in
  let item_type := default "Unknown" (item !! "Type") in
  match item_id with
  | None => mret st
  | Some item_id =>
      if negb (Str.truthy item_id) then mret st else
      print ("Processing: " +:+ title +:+ " (ID: " +:+ item_id +:+ ")");;
      let poster_url := base_url +:+ "/Items/" +:+ item_id +:+ "/Images/Primary?maxWidth=300" in
      let logo_url := base_url +:+ "/Items/" +:+ item_id +:+ "/Images/Logo?maxWidth=300" in
      let poster_path := os_path_join POSTER_CACHE_DIR (item_id +:+ ".jpg") in
      let logo_path := os_path_join LOGO_CACHE_DIR (item_id +:+ ".png") in
      poster_bytes ← get_cached_image poster_url poster_path (auth_headers g);
      '(root, poster_cid) ← attach_if_obtained root ("poster_" +:+ item_id) poster_bytes;
      logo_bytes ← get_cached_image logo_url logo_path (auth_headers g);
      '(root, logo_cid) ← attach_if_obtained root ("logo_" +:+ item_id) logo_bytes;
      mret (root, html_content +:+ Html.block poster_cid logo_cid title item_type)
  end.

(** Lines 86-187 for a listing that is a list: the message composed from
    the items. *)
Definition compose (g : Globals) (items : list Item) : M Message :=
  let base_url := jellyfin_base_url (JELLYFIN_API_URL g) in
  let html_content := Html.head (JELLYFIN_WEB_URL g) in
  '(root, html_content) ← for_each (process_item g base_url) (take 10 items) ([], html_content);
  let html_content := html_content +:+ Html.tail in
  mret {| msg_subject := EMAIL_SUBJECT g;
          msg_from := SENDER_EMAIL g;
          msg_to := Str.join ", " (RECIPIENT_EMAILS g);
          msg_html := html_content;
          msg_images := root |}.

Definition send_jellyfin_email (g : Globals) : M unit :=
  valid ← validate required_vars;
  if negb valid then mret tt else
  items ← get_latest_items g;
  if negb (payload_truthy items)
  then print "No items found or failed to fetch from Jellyfin"
  else
    match items with
    | JOther _ =>
        (* [items[:10]], or [item.get] on what it yields, fails *)
        raise (TypeError "the listing is not a list of objects")
    | JList items =>
        msg_root ← compose g items;
        try_except
          (smtp_session g msg_root;;
           print "Email sent successfully!")
          (λ e, print_exn "Failed to send email: " e)
    end.

End Script.

(** * Notions the statements use *)

(** The commands of a mail session, among the events. *)
Definition is_smtp (ev : event) : bool :=
  match ev with
  | ESmtpConnect _ _ | ESmtpStarttls | ESmtpLogin _ _ | ESmtpSendmail _ _ _ | ESmtpQuit => true
  | _ => false
  end.

(** The test of line 119 passes: the item has an [Id], and it is not the
    empty text. *)
Definition retained_id (item : Item) : option string :=
  match item !! "Id" with
  | Some id => if Str.truthy id then Some id else None
  | None => None
  end.

Definition has_identity (item : Item) : bool :=
  match retained_id item with Some _ => true | None => false end.

Definition item_title (item : Item) : string := default "Unknown Title" (item !! "Name").
Definition item_type (item : Item) : string := default "Unknown" (item !! "Type").

(** The block of an item, as a value: the content identifiers of the images
    shown and the two texts. *)
Record Block := {
  blk_poster : option string;
  blk_logo : option string;
  blk_title : string;
  blk_type : string
}.

Definition render (b : Block) : string :=
  Html.block (blk_poster b) (blk_logo b) (blk_title b) (blk_type b).

Definition render_all (blocks : list Block) : string :=
  foldr (λ b rest, render b +:+ rest) EmptyString blocks.

(** The [Content-ID] headers of the images a block shows. *)
Definition block_cids (b : Block) : list string :=
  (λ cid, "<" +:+ cid +:+ ">") <$> (option_list (blk_poster b) ++ option_list (blk_logo b))%list.

(** [b] is a block of [item]: its texts are the item's, and an image it
    shows carries the identifier made from the item's [Id]. *)
Definition block_of_item (item : Item) (b : Block) : Prop :=
  ∃ id, retained_id item = Some id
        ∧ blk_title b = item_title item
        ∧ blk_type b = item_type item
        ∧ (blk_poster b = None ∨ blk_poster b = Some ("poster_" +:+ id))
        ∧ (blk_logo b = None ∨ blk_logo b = Some ("logo_" +:+ id)).

(** What the loop body asks the cache for an item. *)
Definition poster_request (base id : string) : string :=
  base +:+ "/Items/" +:+ id +:+ "/Images/Primary?maxWidth=300".
Definition logo_request (base id : string) : string :=
  base +:+ "/Items/" +:+ id +:+ "/Images/Logo?maxWidth=300".
Definition poster_file (id : string) : string := os_path_join POSTER_CACHE_DIR (id +:+ ".jpg").
Definition logo_file (id : string) : string := os_path_join LOGO_CACHE_DIR (id +:+ ".png").

(** Line 122 *)
Definition processing (item : Item) (id : string) : event :=
  EPrint ("Processing: " +:+ item_title item +:+ " (ID: " +:+ id +:+ ")").


(** The events a stretch of the run from [w] to [w'] has added to the
    trace, newest first. *)
Definition added_events (w w' : World) : list event :=
  take (length (trace w') - length (trace w)) (trace w').

(** A request, whenever [ev] is one, asks for the poster or the logo of one
    of [items] under [base]. *)
Definition asks_image_of (base : string) (items : list Item) (ev : event) : Prop :=
  match ev with
  | EGet url _ =>
      ∃ item id, item ∈ items ∧ retained_id item = Some id
                 ∧ (url = poster_request base id ∨ url = logo_request base id)
  | _ => True
  end.

(** * Notions for the run as a whole *)

(** The requests among the events. *)
Definition is_get (ev : event) : bool :=
  match ev with
  | EGet _ _ => true
  | _ => false
  end.

(** The events of fetching and composing: requests that carry the token
    header of [g], lines on the console, looks at the file system; no
    command of a mail session. *)
Definition quiet (g : Globals) (ev : event) : Prop :=
  match ev with
  | EGet _ headers => headers = auth_headers g
  | ev => is_smtp ev = false
  end.

(** A request, whenever there is one, carries the token header of [g]. *)
Definition authenticated (g : Globals) (ev : event) : Prop :=
  match ev with
  | EGet _ headers => headers = auth_headers g
  | _ => True
  end.

(** [w'] is [w] after a stretch of the run that only adds: the settings
    and the outside are the same, no request is forgotten, every file of
    [w] is there unchanged, and the trace has grown by events that satisfy
    [P]. *)
Record after (P : event → Prop) (w w' : World) : Prop := {
  after_environ : environ w' = environ w;
  after_creatable : creatable w' = creatable w;
  after_server : server w' = server w;
  after_smtp : smtp_failure w' = smtp_failure w;
  after_requests : (requests_made w ≤ requests_made w')%nat;
  after_fs : ∀ path n, fs w !! path = Some n → fs w' !! path = Some n;
  after_trace : ∃ evs, trace w' = (evs ++ trace w)%list ∧ Forall P evs
}.

(** Every run of [m] leaves such a world. *)
Definition keeps {A} (P : event → Prop) (m : M A) : Prop :=
  ∀ w, after P w (m w).1.

(** [s[n:]] *)
Fixpoint slice_from (n : nat) (s : string) : string :=
  match n, s with
  | O, _ => s
  | S n', String _ s' => slice_from n' s'
  | S _, EmptyString => EmptyString
  end.

(** The commands of a mail session that fails at [stage], newest first:
    those up to the failing one, and the end of the session if it was
    opened. *)
Definition failed_session (g : Globals) (msg : Message) (stage : smtp_stage) : list event :=
  let connect := ESmtpConnect (SMTP_SERVER g) (SMTP_PORT g) in
  let login := ESmtpLogin (SENDER_EMAIL g) (SENDER_PASSWORD g) in
  let sendmail := ESmtpSendmail (SENDER_EMAIL g) (RECIPIENT_EMAILS g) msg in
  match stage with
  | Connect => [connect]
  | Starttls => [ESmtpQuit; ESmtpStarttls; connect]
  | Login => [ESmtpQuit; login; ESmtpStarttls; connect]
  | Sendmail => [ESmtpQuit; sendmail; login; ESmtpStarttls; connect]
  end.

(** Every run of [m] sends at most [n] requests. *)
Definition within {A} (n : nat) (m : M A) : Prop :=
  ∀ w, (requests_made (m w).1 ≤ requests_made w + n)%nat.

(** * Sample data, for the examples below *)

Module Sample.

(** A guess that knows the signature of PNG files only. *)
Definition png_signature : bytes := [x89; x50; x4e; x47; x0d; x0a; x1a; x0a].

Definition what (d : bytes) : option string :=
  if bool_decide (take 8 d = png_signature) then Some "png" else None.

Definition png : bytes := (png_signature ++ [x00; x01])%list.

Definition g : Globals :=
  {| JELLYFIN_API_URL := "http://media:8096/Users/u1/Items/Latest";
     JELLYFIN_API_TOKEN := "secret";
     SMTP_SERVER := "smtp.gmail.com";
     SMTP_PORT := 587;
     SENDER_EMAIL := "me@example.org";
     SENDER_PASSWORD := "pw";
     RECIPIENT_EMAILS := ["a@example.org"; "b@example.org"];
     JELLYFIN_WEB_URL := "http://media:8096/web/index.html";
     EMAIL_SUBJECT := "Now on Jellyfin!" |}.

Definition env : gmap string string :=
  {[ "JELLYFIN_API_URL" := "http://media:8096/Users/u1/Items/Latest";
     "JELLYFIN_API_TOKEN" := "secret";
     "SENDER_EMAIL" := "me@example.org";
     "SENDER_PASSWORD" := "pw";
     "RECIPIENT_EMAILS" := "a@example.org,b@example.org" ]}.

(** A world with an empty cache, in which every request gets [answer]. *)
Definition world (environment : gmap string string) (answer : http_outcome) : World :=
  {| environ := environment;
     fs := ∅;
     creatable := λ _, true;
     server := λ _ _ _, answer;
     requests_made := 0;
     smtp_failure := None;
     trace := [] |}.

Definition movie : Item := {[ "Id" := "a1"; "Name" := "Alien"; "Type" := "Movie" ]}.
Definition series : Item := {[ "Id" := "b2"; "Name" := "Dark"; "Type" := "Series" ]}.

(** An item whose [Id] is there, and empty. *)
Definition blank : Item := {[ "Id" := ""; "Name" := "Untitled"; "Type" := "Movie" ]}.

(** An item whose title is markup. *)
Definition markup : Item := {[ "Id" := "c3"; "Name" := "<img src=x>"; "Type" := "Movie" ]}.

(** The server answers with a PNG image. *)
Definition image_answer : http_outcome :=
  Responded {| status_code := 200; content := png; json := None |}.

(** The server answers 404. *)
Definition not_found : http_outcome :=
  Responded {| status_code := 404; content := []; json := None |}.

(** The server answers 300, a status that is neither a success nor one
    [raise_for_status] raises for, with a body that is a listing of one
    item. *)
Definition multiple_choices : http_outcome :=
  Responded {| status_code := 300; content := png; json := Some (JList [movie]) |}.

(** The server answers the listing request with no item. *)
Definition empty_listing : http_outcome :=
  Responded {| status_code := 200; content := []; json := Some (JList []) |}.

Definition timeout : http_outcome := Failed "timed out".

Definition poster_url : string := "http://media:8096/Items/a1/Images/Primary?maxWidth=300".
Definition poster_path : string := "cache/posters/a1.jpg".

(** The five settings without the recipients. *)
Definition env_without_recipients : gmap string string :=
  delete "RECIPIENT_EMAILS" env.

(** A server that answers the listing request with two items and any
    other request with the image, and the world around it. *)
Definition listing_answer : http_outcome :=
  Responded {| status_code := 200; content := []; json := Some (JList [movie; series]) |}.

Definition media_world : World :=
  {| environ := env;
     fs := ∅;
     creatable := λ _, true;
     server := λ _ url _,
       if bool_decide (url = JELLYFIN_API_URL g) then listing_answer else image_answer;
     requests_made := 0;
     smtp_failure := None;
     trace := [] |}.

End Sample.

(** * More sample data *)

Module More.

(** Bytes that are no PNG image. *)
Definition garbage : bytes := [x3c; x73; x76; x67].

(** A world whose cache holds a poster, a logo that cannot be read, and a
    directory where a poster should be. *)
Definition cached_world : World :=
  {| environ := Sample.env;
     fs := {[ "cache/posters/a1.jpg" := File Sample.png true;
              "cache/logos/a1.png" := File Sample.png false;
              "cache/posters/b2.jpg" := Dir ]};
     creatable := λ _, true;
     server := λ _ _ _, Sample.timeout;
     requests_made := 0;
     smtp_failure := None;
     trace := [] |}.

(** A world in which no file can be created. *)
Definition read_only_world : World :=
  {| environ := Sample.env;
     fs := ∅;
     creatable := λ _, false;
     server := λ _ _ _, Sample.image_answer;
     requests_made := 0;
     smtp_failure := None;
     trace := [] |}.

Definition empty_answer : http_outcome :=
  Responded {| status_code := 200; content := []; json := None |}.

(** The listing is served, the images are not images. *)
Definition garbage_world : World :=
  {| environ := Sample.env;
     fs := ∅;
     creatable := λ _, true;
     server := λ _ url _,
       if bool_decide (url = JELLYFIN_API_URL Sample.g) then Sample.listing_answer
       else Responded {| status_code := 200; content := garbage; json := None |};
     requests_made := 0;
     smtp_failure := None;
     trace := [] |}.

(** All is served, and the mail server refuses the login. *)
Definition login_refused_world : World :=
  {| environ := Sample.env;
     fs := ∅;
     creatable := λ _, true;
     server := server Sample.media_world;
     requests_made := 0;
     smtp_failure := Some Login;
     trace := [] |}.

(** The listing request is answered with null, and with an object. *)
Definition null_answer : http_outcome :=
  Responded {| status_code := 200; content := []; json := Some (JOther false) |}.

Definition object_answer : http_outcome :=
  Responded {| status_code := 200; content := []; json := Some (JOther true) |}.

(** The message composed from the two sample items. *)
Definition two_items_message : Message :=
  {| msg_subject := "Now on Jellyfin!";
     msg_from := "me@example.org";
     msg_to := "a@example.org, b@example.org";
     msg_html :=
       Html.head "http://media:8096/web/index.html"
       +:+ Html.block (Some "poster_a1") (Some "logo_a1") "Alien" "Movie"
       +:+ Html.block (Some "poster_b2") (Some "logo_b2") "Dark" "Series"
       +:+ Html.tail;
     msg_images :=
       [ {| content_id := "<poster_a1>"; subtype := "png"; data := Sample.png |};
         {| content_id := "<logo_a1>"; subtype := "png"; data := Sample.png |};
         {| content_id := "<poster_b2>"; subtype := "png"; data := Sample.png |};
         {| content_id := "<logo_b2>"; subtype := "png"; data := Sample.png |} ] |}.

End More.

(** * Facts about texts *)

Example split_recipients :
  Str.split "," "a@example.org,b@example.org" = ["a@example.org"; "b@example.org"].
Proof. reflexivity. Qed.

Example split_nothing : Str.split "," EmptyString = [EmptyString].
Proof. reflexivity. Qed.

Example split_marker :
  Str.split "/Users/" "http://media:8096/Users/u1/Items/Latest"
  = ["http://media:8096"; "u1/Items/Latest"].
Proof. reflexivity. Qed.

Example join_recipients : Str.join ", " ["a"; "b"; "c"] = "a, b, c".
Proof. reflexivity. Qed.

Example poster_path_of_id : os_path_join POSTER_CACHE_DIR "a1.jpg" = "cache/posters/a1.jpg".
Proof. reflexivity. Qed.

Example path_of_absolute_id : os_path_join POSTER_CACHE_DIR "/tmp/a1.jpg" = "/tmp/a1.jpg".
Proof. reflexivity. Qed.

(** Without any variable set the module loads with its defaults; the
    recipients are then one empty address. *)
Example default_globals int :
  (λ g, (JELLYFIN_API_URL g, SMTP_PORT g, RECIPIENT_EMAILS g)) <$> load_globals int ∅
  = Some ("http://localhost:8096/Users/{USER_ID}/Items/Latest", 587, [EmptyString]).
Proof. reflexivity. Qed.

Module StrFacts.
Import Str.

Lemma app_cons c s t : String c s +:+ t = String c (s +:+ t).
Proof. reflexivity. Qed.

Lemma app_nil_r s : s +:+ EmptyString = s.
Proof. induction s as [|c s IH]; [reflexivity|]. rewrite app_cons. by f_equal. Qed.

Lemma app_assoc s t u : (s +:+ t) +:+ u = s +:+ t +:+ u.
Proof. induction s as [|c s IH]; [reflexivity|]. rewrite !app_cons. by f_equal. Qed.

Lemma app_length s t : String.length (s +:+ t) = (String.length s + String.length t)%nat.
Proof. induction s as [|c s IH]; [reflexivity|]. rewrite app_cons. simpl. by f_equal. Qed.

Lemma startswith_app p s : startswith p (p +:+ s) = true.
Proof.
  induction p as [|c p IH]; [reflexivity|].
  rewrite app_cons. simpl. by rewrite Ascii.eqb_refl.
Qed.

Lemma startswith_inv p s : startswith p s = true → ∃ post, s = p +:+ post.
Proof.
  revert s. induction p as [|c p IH]; intros s H.
  - by exists s.
  - destruct s as [|b s]; [done|]. simpl in H.
    destruct (Ascii.eqb_spec c b) as [->|]; [|done].
    destruct (IH _ H) as [post ->]. by exists post.
Qed.

Lemma contains_app pre p post : contains p (pre +:+ p +:+ post) = true.
Proof.
  induction pre as [|c pre IH].
  - change (EmptyString +:+ p +:+ post) with (p +:+ post).
    destruct (p +:+ post) eqn:E; simpl; rewrite <- E, startswith_app; done.
  - rewrite app_cons. simpl. rewrite IH. apply orb_true_r.
Qed.

Lemma contains_inv p s : contains p s = true → ∃ pre post, s = pre +:+ p +:+ post.
Proof.
  induction s as [|c s IH]; simpl; intros H.
  - rewrite orb_false_r in H. apply startswith_inv in H as [post ->].
    by exists EmptyString, post.
  - apply orb_true_iff in H as [H|H].
    + apply startswith_inv in H as [post ->]. by exists EmptyString, post.
    + destruct (IH H) as (pre & post & ->). by exists (String c pre), post.
Qed.

Lemma split_from_head sep cur s :
  head (split_from sep 0 cur s) = Some (cur +:+ before sep s).
Proof.
  revert cur. induction s as [|c s IH]; intros cur.
  - simpl. destruct (startswith sep EmptyString); by rewrite app_nil_r.
  - simpl. destruct (startswith sep (String c s)).
    + simpl. by rewrite app_nil_r.
    + rewrite IH, app_assoc. reflexivity.
Qed.

Lemma split_head sep s : head (split sep s) = Some (before sep s).
Proof. apply split_from_head. Qed.

Lemma before_occurrence sep s :
  contains sep s = true → ∃ post, s = before sep s +:+ sep +:+ post.
Proof.
  induction s as [|c s IH]; simpl; intros H.
  - rewrite orb_false_r in H. rewrite H.
    apply startswith_inv in H as [post H]. by exists post.
  - destruct (startswith sep (String c s)) eqn:E.
    + apply startswith_inv in E as [post E]. by exists post.
    + simpl in H. destruct (IH H) as [post Hpost].
      exists post. rewrite app_cons. by f_equal.
Qed.

Lemma before_shortest sep pre post :
  (String.length (before sep (pre +:+ sep +:+ post)) ≤ String.length pre)%nat.
Proof.
  induction pre as [|c pre IH].
  - change (EmptyString +:+ sep +:+ post) with (sep +:+ post).
    destruct (sep +:+ post) eqn:E; simpl; [by destruct (startswith sep _)|].
    by rewrite <- E, startswith_app.
  - rewrite app_cons. simpl.
    destruct (startswith sep _); simpl; lia.
Qed.

Lemma startswith_contains p s : startswith p s = true → contains p s = true.
Proof. destruct s; simpl; intros ->; done. Qed.

Lemma contains_tail p c s : contains p (String c s) = false → contains p s = false.
Proof. simpl. by intros [_ ?]%orb_false_iff. Qed.

(** A prefix of [a +:+ b] lies within [a], or covers [a] and goes on
    into [b]. *)
Lemma startswith_app_cases p a b :
  startswith p (a +:+ b) = true →
  startswith p a = true
  ∨ ∃ p2, p = a +:+ p2 ∧ p2 ≠ EmptyString ∧ startswith p2 b = true.
Proof.
  revert p. induction a as [|c a IH]; intros p H.
  - destruct p as [|d p]; [by left|]. right. by exists (String d p).
  - destruct p as [|d p]; [by left|].
    rewrite app_cons in H. simpl in *.
    destruct (Ascii.eqb_spec d c) as [->|]; [|done].
    destruct (IH _ H) as [?|(p2 & -> & ? & ?)]; [by left|].
    right. by exists p2.
Qed.

(** [p] does not occur in [t +:+ y] when it occurs in neither and no
    occurrence can sit across the seam. *)
Lemma contains_app_false p t y :
  contains p t = false →
  contains p y = false →
  (∀ p1 p2, p = p1 +:+ p2 → p1 ≠ EmptyString → p2 ≠ EmptyString → startswith p2 y = false) →
  contains p (t +:+ y) = false.
Proof.
  intros Ht Hy Hseam. induction t as [|c t IH]; [done|].
  rewrite app_cons. simpl. apply orb_false_iff. split.
  - destruct (startswith p (String c (t +:+ y))) eqn:E; [|done].
    rewrite <- app_cons in E. apply startswith_app_cases in E as [E|(p2 & -> & Hp2 & E)].
    + apply startswith_contains in E. congruence.
    + rewrite (Hseam (String c t) p2) in E; done.
  - apply IH. by eapply contains_tail.
Qed.

Lemma img_seam p1 p2 :
  "<img" = p1 +:+ p2 → p1 ≠ EmptyString → p2 ≠ EmptyString →
  p2 = "img" ∨ p2 = "mg" ∨ p2 = "g".
Proof.
  intros H H1 H2.
  destruct p1 as [|c1 [|c2 [|c3 [|c4 p1]]]]; [done|..]; cbv in H;
    inversion H; subst; auto.
  destruct p1; [done|discriminate].
Qed.

Lemma app_inv_last c s s' :
  s +:+ String c EmptyString = s' +:+ String c EmptyString → s = s'.
Proof.
  revert s'. induction s as [|a s IH]; intros [|a' s']; rewrite ?app_cons; try done.
  - intros [= _ H]. by destruct s'.
  - intros [= _ H]. by destruct s.
  - intros [= -> H]. f_equal. by apply IH.
Qed.

End StrFacts.

(** * The base URL of the image requests *)

(** Line 101: the base is the text of the endpoint that precedes the
    marker [/Users/] (its first occurrence: no shorter prefix of the endpoint
    is followed by the marker); an endpoint in which the marker does not
    occur gets the fallback. *)
Lemma jellyfin_base_url_cases (api_url : string) :
  (∃ pre post,
      api_url = pre +:+ "/Users/" +:+ post
      ∧ jellyfin_base_url api_url = pre
      ∧ ∀ pre' post', api_url = pre' +:+ "/Users/" +:+ post' →
                      (String.length pre ≤ String.length pre')%nat)
  ∨ ((∀ pre post, api_url ≠ pre +:+ "/Users/" +:+ post)
     ∧ jellyfin_base_url api_url = "http://localhost:8096").
Proof.
  unfold jellyfin_base_url.
  destruct (Str.contains "/Users/" api_url) eqn:E.
  - left. destruct (StrFacts.before_occurrence _ _ E) as [post Hpost].
    exists (Str.before "/Users/" api_url), post.
    rewrite StrFacts.split_head. split; [done|]. split; [done|].
    intros pre' post' ->. apply StrFacts.before_shortest.
  - right. split; [|done].
    intros pre post ->. by rewrite StrFacts.contains_app in E.
Qed.

(** * The image cache *)

(** Unfolds the monad and the primitives, so that a run of the script on a
    world is a cascade of matches. *)
Ltac run :=
  unfold get_cached_image, download, get_latest_items, response_json,
    read_file, write_file, os_path_exists, os_getenv, requests_get, raise_for_status,
    http_error, try_except, finally, print, print_exn, emit, raise, mbind, M_bind, mret, M_ret in *;
  simpl in *.

Ltac cases := repeat (case_match; simplify_eq/=; try done).

(** [get_cached_image] always returns: what goes wrong inside is caught. *)
Lemma get_cached_image_returns url path headers w :
  ∃ image, (get_cached_image url path headers w).2 = Ret image.
Proof. run. cases; eauto. Qed.

(** What the function returns it has read from the file at the cache
    path. *)
Lemma get_cached_image_reads_file url path headers w d :
  (get_cached_image url path headers w).2 = Ret (Some d) →
  fs (get_cached_image url path headers w).1 !! path = Some (File d true).
Proof.
  run. cases; intros; simplify_eq; done.
Qed.

(** C10. Bytes returned by [get_cached_image] are the contents of the
    file at the cache path when the call ends: on a hit and after a download
    alike, the value comes from reading that file. *)
Theorem returned_bytes_are_cached url path headers w d :
  (get_cached_image url path headers w).2 = Ret (Some d) →
  ∃ readable,
    fs (get_cached_image url path headers w).1 !! path = Some (File d readable).
Proof. intros Hd. exists true. by apply get_cached_image_reads_file. Qed.

(** A call for a path the cache does not hold asks the server. *)
Lemma cache_miss_requests url path headers w :
  fs w !! path = None →
  let w' := (get_cached_image url path headers w).1 in
  requests_made w' = S (requests_made w)
  ∧ ∃ later, trace w' =
      (later ++ [EGet url headers; EPrint ("Downloading: " +:+ url); EExists path] ++ trace w)%list.
Proof.
  intros Hnone. run. rewrite Hnone. simpl.
  cases; (split; [done|]).
  all: first [by eexists [] | by eexists [_] | by eexists [_; _] | by eexists [_; _; _]].
Qed.

(** C2. When the cache holds nothing at the path and the download
    succeeds (the server answers with a status that is no error, and the
    file can be created), the call writes the answer's body to the path,
    exactly once and nowhere else, and returns it; a second call for the
    same path asks the server nothing and returns the same bytes. *)
Theorem cache_miss_then_hit url path headers w r :
  fs w !! path = None →
  server w (requests_made w) url headers = Responded r →
  http_error r = false →
  creatable w path = true →
  let w1 := (get_cached_image url path headers w).1 in
  (get_cached_image url path headers w).2 = Ret (Some (content r))
  ∧ fs w1 = <[path := File (content r) true]> (fs w)
  ∧ trace w1 =
      ([EOpenRead path; EOpenWrite path; EGet url headers;
        EPrint ("Downloading: " +:+ url); EExists path] ++ trace w)%list
  ∧ ∀ url2 headers2,
      let w2 := (get_cached_image url2 path headers2 w1).1 in
      (get_cached_image url2 path headers2 w1).2 = Ret (Some (content r))
      ∧ requests_made w2 = requests_made w1
      ∧ fs w2 = fs w1
      ∧ trace w2 =
          ([EOpenRead path; EPrint ("Using cached: " +:+ path); EExists path] ++ trace w1)%list.
Proof.
  intros Hnone Hserver Hok Hcreate.
  run. rewrite Hnone. simpl. rewrite Hserver. simpl. rewrite Hok. simpl.
  rewrite Hnone, Hcreate. simpl. rewrite lookup_insert_eq. simpl.
  repeat split; try done.
  all: rewrite lookup_insert_eq; simpl; by rewrite ?lookup_insert_eq.
Qed.

(** C5, as the code has it. When the cache holds nothing at the path and
    the request fails (no answer, or an answer with a client or server error
    status, 400 to 599), the call returns [None] and leaves the file system
    as it was; the next call for that path asks the server again. *)
Theorem failed_request_leaves_no_file url path headers w :
  fs w !! path = None →
  match server w (requests_made w) url headers with
  | Failed _ => True
  | Responded r => 400 ≤ status_code r < 600
  end →
  let w1 := (get_cached_image url path headers w).1 in
  (get_cached_image url path headers w).2 = Ret None
  ∧ fs w1 = fs w
  ∧ ∀ url2 headers2,
      let w2 := (get_cached_image url2 path headers2 w1).1 in
      requests_made w2 = S (requests_made w1)
      ∧ ∃ later, trace w2 =
          (later ++ [EGet url2 headers2; EPrint ("Downloading: " +:+ url2); EExists path]
             ++ trace w1)%list.
Proof.
  intros Hnone Hfail.
  assert ((get_cached_image url path headers w).2 = Ret None
          ∧ fs (get_cached_image url path headers w).1 = fs w) as [Hres Hfs].
  { run. rewrite Hnone. simpl.
    destruct (server w (requests_made w) url headers) as [why|r]; simpl; [done|].
    replace (400 <=? status_code r) with true by (symmetry; apply Z.leb_le; lia).
    replace (status_code r <? 600) with true by (symmetry; apply Z.ltb_lt; lia).
    done. }
  split; [done|]. split; [done|].
  intros url2 headers2. apply cache_miss_requests. by rewrite Hfs.
Qed.

(** * The listing fetcher *)

(** C3, as the code has it. When the listing request fails in a way the
    HTTP library reports (no answer: connection error or timeout; an answer
    with a client or server error status, 400 to 599; a body that does not
    decode as JSON), [get_latest_items] returns the empty list and raises
    nothing. *)
Theorem listing_failure_gives_empty g w :
  match server w (requests_made w) (JELLYFIN_API_URL g) (auth_headers g) with
  | Failed _ => True
  | Responded r => 400 ≤ status_code r < 600 ∨ json r = None
  end →
  (get_latest_items g w).2 = Ret (JList []).
Proof.
  run. destruct (server w _ _ _) as [why|r]; simpl; [done|].
  intros [Hstatus|Hjson].
  - replace (400 <=? status_code r) with true by (symmetry; apply Z.leb_le; lia).
    replace (status_code r <? 600) with true by (symmetry; apply Z.ltb_lt; lia).
    done.
  - rewrite Hjson. by destruct (_ && _).
Qed.

(** [get_latest_items] never raises, and touches nothing but the network
    and the console. *)
Lemma get_latest_items_returns g w :
  ∃ items, (get_latest_items g w).2 = Ret items.
Proof. run. cases; eauto. Qed.

Lemma get_latest_items_trace g w :
  ∃ evs, trace (get_latest_items g w).1 = (evs ++ trace w)%list
         ∧ Forall (λ ev, is_smtp ev = false) evs.
Proof.
  run. cases.
  all: first [ by eexists [_]; split; [|repeat constructor]
             | by eexists [_; _]; split; [|repeat constructor] ].
Qed.

(** * The run *)

(** Lines 74-77 either find every variable set, and leave the world as it
    was, or print one error and make the function return. *)
Lemma validate_cases vars w :
  (validate vars w = (w, Ret true) ∧ Forall (λ var, unset (environ w !! var) = false) vars)
  ∨ ∃ var, var ∈ vars ∧ unset (environ w !! var) = true ∧
      validate vars w =
        (add_event (EPrint ("Error: Environment variable " +:+ var +:+ " is required but not set.")) w,
         Ret false).
Proof.
  induction vars as [|var vars IH]; simpl.
  - left. by split.
  - run. destruct (unset (environ w !! var)) eqn:E.
    + right. exists var. split; [left|done].
    + destruct IH as [[-> Hall]|(var' & Hin & Hunset & ->)].
      * left. split; [done|]. by constructor.
      * right. exists var'. split; [by right|done].
Qed.

(** C4. When one of the five required settings is missing (unset, or set
    to the empty text), [send_jellyfin_email] prints one error and returns:
    the world it leaves differs from the one it found by that line on the
    console only, so no request was sent, no cache path was looked at, read
    or written, and no mail session was opened. *)
Theorem missing_setting_aborts what g w var :
  var ∈ required_vars →
  unset (environ w !! var) = true →
  ∃ missing,
    missing ∈ required_vars ∧ unset (environ w !! missing) = true ∧
    send_jellyfin_email what g w =
      (add_event (EPrint ("Error: Environment variable " +:+ missing +:+ " is required but not set.")) w,
       Ret tt).
Proof.
  intros Hin Hunset.
  destruct (validate_cases required_vars w) as [[_ Hall]|(missing & Hm & Hu & Hv)].
  - rewrite Forall_forall in Hall. specialize (Hall _ Hin). congruence.
  - exists missing. split; [done|]. split; [done|].
    unfold send_jellyfin_email, mbind, M_bind. rewrite Hv. reflexivity.
Qed.

(** C6. When the fetcher returns the empty list, the run performs no
    command of a mail session: everything it adds to the trace is a request
    or a line on the console. *)
Theorem no_items_no_dispatch what g w :
  (get_latest_items g w).2 = Ret (JList []) →
  ∃ evs, trace (send_jellyfin_email what g w).1 = (evs ++ trace w)%list
         ∧ Forall (λ ev, is_smtp ev = false) evs.
Proof.
  intros Hempty.
  unfold send_jellyfin_email, mbind, M_bind.
  destruct (validate_cases required_vars w) as [[-> _]|(missing & _ & _ & ->)]; simpl.
  - destruct (get_latest_items_trace g w) as (evs & Htrace & Hevs).
    destruct (get_latest_items g w) as [w1 res]. simpl in *. subst res. simpl.
    exists (EPrint "No items found or failed to fetch from Jellyfin" :: evs).
    split; [by rewrite Htrace|]. by constructor.
  - eexists [_]. split; [done|]. by repeat constructor.
Qed.


(** * The composer *)

Lemma get_cached_image_world url path headers w :
  let w' := (get_cached_image url path headers w).1 in
  server w' = server w
  ∧ (requests_made w ≤ requests_made w')%nat
  ∧ (fs w' = fs w
     ∨ ∃ r, server w (requests_made w) url headers = Responded r
            ∧ fs w' = <[path := File (content r) true]> (fs w)).
Proof. run. cases; eauto 10 with lia. Qed.

Lemma plain_block_shape title kind :
  Html.block None None title kind =
    Html.block_open +:+ Html.text_lead +:+ title +:+ Html.text_mid +:+ kind
      +:+ Html.text_trail +:+ Html.block_close.
Proof.
  unfold Html.block, Html.block_text.
  change (EmptyString +:+ ?x) with x.
  by rewrite !StrFacts.app_assoc.
Qed.

(** The block without images has an [img] tag only if the title or the
    type brings one. *)
Lemma plain_block_no_img title kind :
  Str.contains "<img" title = false →
  Str.contains "<img" kind = false →
  Str.contains "<img" (Html.block None None title kind) = false.
Proof.
  intros Htitle Hkind.
  assert (Str.contains "<img" (kind +:+ Html.text_trail +:+ Html.block_close) = false) as Hk.
  { apply StrFacts.contains_app_false; [done|by vm_compute|].
    intros p1 p2 Hp H1 H2.
    destruct (StrFacts.img_seam p1 p2 Hp H1 H2) as [->|[->| ->]]; by vm_compute. }
  assert (∀ rest, Str.contains "<img" (Html.text_mid +:+ rest) = Str.contains "<img" rest) as Hmid
    by reflexivity.
  assert (Str.contains "<img" (title +:+ Html.text_mid +:+ kind +:+ Html.text_trail +:+ Html.block_close)
          = false) as Ht.
  { apply StrFacts.contains_app_false; [done|by rewrite Hmid|].
    intros p1 p2 Hp H1 H2.
    destruct (StrFacts.img_seam p1 p2 Hp H1 H2) as [->|[->| ->]]; reflexivity. }
  rewrite plain_block_shape. etrans; [|exact Ht]. reflexivity.
Qed.

Lemma for_each_cons {A S} (body : A → S → M S) x l s w :
  for_each body (x :: l) s w =
    match body x s w with
    | (w', Ret s') => for_each body l s' w'
    | (w', Raise e) => (w', Raise e)
    end.
Proof. reflexivity. Qed.

(** The two kinds of identifier never meet, and each tells its item. *)
Lemma poster_cid_inj id id' :
  "<" +:+ ("poster_" +:+ id) +:+ ">" = "<" +:+ ("poster_" +:+ id') +:+ ">" → id = id'.
Proof.
  intros H. apply (inj (String.append "<")) in H.
  rewrite !StrFacts.app_assoc in H. apply (inj (String.append "poster_")) in H.
  by apply StrFacts.app_inv_last in H.
Qed.

Lemma logo_cid_inj id id' :
  "<" +:+ ("logo_" +:+ id) +:+ ">" = "<" +:+ ("logo_" +:+ id') +:+ ">" → id = id'.
Proof.
  intros H. apply (inj (String.append "<")) in H.
  rewrite !StrFacts.app_assoc in H. apply (inj (String.append "logo_")) in H.
  by apply StrFacts.app_inv_last in H.
Qed.

Lemma poster_cid_not_logo id id' :
  "<" +:+ ("poster_" +:+ id) +:+ ">" ≠ "<" +:+ ("logo_" +:+ id') +:+ ">".
Proof. intros H. cbv in H. discriminate H. Qed.

(** An identifier among the blocks of some items is the poster's or the
    logo's of one of them. *)
Lemma block_cids_owner items blocks cid :
  Forall2 block_of_item items blocks →
  cid ∈ blocks ≫= block_cids →
  ∃ id, id ∈ omap retained_id items
        ∧ (cid = "<" +:+ ("poster_" +:+ id) +:+ ">" ∨ cid = "<" +:+ ("logo_" +:+ id) +:+ ">").
Proof.
  induction 1 as [|item b items blocks Hb _ IH]; [by intros ?%elem_of_nil|].
  rewrite bind_cons, elem_of_app. simpl.
  destruct Hb as (id & Hid & _ & _ & Hp & Hl). rewrite Hid.
  intros [Hin|Hin].
  - exists id. split; [left|].
    unfold block_cids in Hin.
    destruct Hp as [Hp|Hp], Hl as [Hl|Hl]; rewrite Hp, Hl in Hin; simpl in Hin;
      repeat (apply elem_of_cons in Hin as [Hin|Hin]); try (by apply elem_of_nil in Hin); eauto.
  - destruct (IH Hin) as (id' & ? & ?). exists id'. split; [by right|done].
Qed.

Lemma block_cids_NoDup items blocks :
  Forall2 block_of_item items blocks →
  NoDup (omap retained_id items) →
  NoDup (blocks ≫= block_cids).
Proof.
  induction 1 as [|item b items blocks Hb Hrest IH]; [constructor|].
  rewrite bind_cons. simpl.
  destruct Hb as (id & Hid & _ & _ & Hp & Hl). rewrite Hid.
  intros [Hfresh Hnodup]%NoDup_cons.
  apply NoDup_app. split; [|split; [|by apply IH]].
  - unfold block_cids.
    destruct Hp as [-> | ->], Hl as [-> | ->]; simpl;
      rewrite ?NoDup_cons, ?not_elem_of_cons; repeat split;
      try apply NoDup_nil_2; try apply not_elem_of_nil.
    apply poster_cid_not_logo.
  - intros cid Hin Hin'.
    destruct (block_cids_owner _ _ _ Hrest Hin') as (id' & Hid' & Hcid').
    assert (id' = id) as -> ; [|done].
    unfold block_cids in Hin.
    destruct Hp as [Hp|Hp], Hl as [Hl|Hl], Hcid' as [-> | ->];
      rewrite Hp, Hl in Hin; simpl in Hin;
      repeat (apply elem_of_cons in Hin as [Hin|Hin]); try (by apply elem_of_nil in Hin).
    all: first [ by apply poster_cid_inj in Hin
               | by apply logo_cid_inj in Hin
               | by apply poster_cid_not_logo in Hin
               | by symmetry in Hin; apply poster_cid_not_logo in Hin ].
Qed.

Lemma omap_retained_filter items :
  omap retained_id (List.filter has_identity items) = omap retained_id items.
Proof.
  induction items as [|item items IH]; [done|].
  cbn [List.filter]. unfold has_identity at 1.
  destruct (retained_id item) eqn:E; simpl; rewrite E; [f_equal|]; exact IH.
Qed.

Section Composer.

Variable what : bytes → option string.

Lemma attach_if_obtained_cases root cid image w :
  match obtained image with
  | Some d =>
      match what d with
      | Some sub =>
          attach_if_obtained what root cid image w =
            (w, Ret ((root ++ [ {| content_id := "<" +:+ cid +:+ ">"; subtype := sub; data := d |} ])%list,
                     Some cid))
      | None => ∃ e, attach_if_obtained what root cid image w = (w, Raise e)
      end
  | None => attach_if_obtained what root cid image w = (w, Ret (root, None))
  end.
Proof.
  unfold attach_if_obtained, attach_image, mbind, M_bind.
  destruct (obtained image) as [d|]; [|done].
  destruct (what d); simpl; eauto.
Qed.

Lemma process_item_skips g base item st w :
  retained_id item = None →
  process_item what g base item st w = (w, Ret st).
Proof.
  unfold retained_id, process_item. destruct st as [root html].
  destruct (item !! "Id") as [id|]; [|done].
  by destruct (Str.truthy id).
Qed.

(** What one round of the loop adds, when it ends without an exception. *)
Lemma process_item_adds g base item root html w w' root' html' :
  is_Some (retained_id item) →
  process_item what g base item (root, html) w = (w', Ret (root', html')) →
  ∃ b new, block_of_item item b
           ∧ html' = html +:+ render b
           ∧ root' = (root ++ new)%list
           ∧ content_id <$> new = block_cids b.
Proof.
  intros [id Hid]. unfold process_item.
  unfold block_of_item. rewrite Hid. unfold retained_id in Hid.
  destruct (item !! "Id") as [id'|] eqn:Hlook; [|done].
  destruct (Str.truthy id') eqn:Htruthy; [|done]. simplify_eq/=.
  unfold mbind, M_bind, print, emit.
  destruct (get_cached_image _ _ _ _) as [w1 [pb|e]]; simpl; [|by intros [=]].
  pose proof (attach_if_obtained_cases root ("poster_" +:+ id) pb w1) as Hp.
  destruct (obtained pb) as [pd|]; [destruct (what pd) as [psub|]; [|destruct Hp as [e Hp]]|];
    rewrite Hp; simpl; try (by intros [=]).
  all: destruct (get_cached_image _ _ _ _) as [w2 [lb|e]]; simpl; [|by intros [=]].
  all: match goal with |- context [attach_if_obtained what ?r ?c ?i ?w0] =>
         pose proof (attach_if_obtained_cases r c i w0) as Hl end.
  all: destruct (obtained lb) as [ld|]; [destruct (what ld) as [lsub|]; [|destruct Hl as [e Hl]]|];
    rewrite Hl; simpl; try (by intros [=]).
  all: intros [= <- <- <-].
  - eexists {| blk_poster := Some _; blk_logo := Some _ |}, [_; _].
    split; [exists id; simpl; eauto 10|].
    split; [reflexivity|]. split; [by rewrite <- app_assoc|reflexivity].
  - eexists {| blk_poster := Some _; blk_logo := None |}, [_].
    split; [exists id; simpl; eauto 10|]. done.
  - eexists {| blk_poster := None; blk_logo := Some _ |}, [_].
    split; [exists id; simpl; eauto 10|]. done.
  - eexists {| blk_poster := None; blk_logo := None |}, [].
    split; [exists id; simpl; eauto 10|].
    split; [reflexivity|]. split; [by rewrite app_nil_r|reflexivity].
Qed.

(** The loop, when it ends without an exception: one block for each item
    that passes the test of line 119, in the order of the list. *)
Lemma for_each_adds g base items root html w w' root' html' :
  for_each (process_item what g base) items (root, html) w = (w', Ret (root', html')) →
  ∃ blocks new, Forall2 block_of_item (List.filter has_identity items) blocks
                ∧ html' = html +:+ render_all blocks
                ∧ root' = (root ++ new)%list
                ∧ content_id <$> new = blocks ≫= block_cids.
Proof.
  revert root html w.
  induction items as [|item items IH]; intros root html w.
  - intros [= <- <- <-]. exists [], [].
    by rewrite StrFacts.app_nil_r, app_nil_r.
  - rewrite for_each_cons.
    destruct (process_item what g base item (root, html) w)
      as [w1 [[root1 html1]|e]] eqn:Hitem; [|by intros [=]].
    intros Hrest. apply IH in Hrest as (blocks & new & Hblocks & -> & -> & Hnew).
    cbn [List.filter]. unfold has_identity at 1.
    destruct (retained_id item) as [id|] eqn:Hid.
    + apply process_item_adds in Hitem as (b & new1 & Hb & -> & -> & Hnew1); [|by rewrite Hid].
      exists (b :: blocks), (new1 ++ new)%list.
      split; [by constructor|]. split; [by rewrite StrFacts.app_assoc|].
      split; [by rewrite <- app_assoc|].
      by rewrite fmap_app, Hnew1, Hnew.
    + rewrite process_item_skips in Hitem by done. simplify_eq.
      by exists blocks, new.
Qed.

Lemma obtained_Some image d : obtained image = Some d → image = Some d ∧ d ≠ [].
Proof. destruct image as [[|b d']|]; simpl; intros [= <-]; done. Qed.

(** Attaching an image either goes through or stops on the [TypeError] of
    [MIMEImage], which takes an obtained image of no subtype it can guess. *)
Lemma attach_if_obtained_ends root cid image w :
  (∃ root' shown, attach_if_obtained what root cid image w = (w, Ret (root', shown)))
  ∨ (∃ d, image = Some d ∧ d ≠ [] ∧ what d = None
          ∧ attach_if_obtained what root cid image w
            = (w, Raise (TypeError "Could not guess image MIME subtype"))).
Proof.
  unfold attach_if_obtained, attach_image, mbind, M_bind.
  destruct (obtained image) as [d|] eqn:Hob; [|left; by eauto].
  apply obtained_Some in Hob as [-> Hne].
  destruct (what d) as [sub|] eqn:Hwhat; simpl; [left; by eauto|].
  right. by exists d.
Qed.

(** An item is processed to the end unless [MIMEImage] stops on an image
    the cache has just read from a file. *)
Lemma process_item_ends g base item st w :
  (∃ w' st', process_item what g base item st w = (w', Ret st'))
  ∨ (∃ w' path d,
        process_item what g base item st w
        = (w', Raise (TypeError "Could not guess image MIME subtype"))
        ∧ fs w' !! path = Some (File d true) ∧ d ≠ [] ∧ what d = None).
Proof.
  destruct st as [root html]. unfold process_item.
  destruct (item !! "Id") as [id|]; [|left; by eauto].
  destruct (Str.truthy id); simpl; [|left; by eauto].
  unfold mbind, M_bind, print, emit.
  match goal with |- context [get_cached_image ?u ?p ?h ?w0] =>
    pose proof (get_cached_image_reads_file u p h w0) as Hpfile;
    destruct (get_cached_image_returns u p h w0) as [pb Hret];
    destruct (get_cached_image u p h w0) as [w1 res1] end.
  simpl in *. subst res1.
  destruct (attach_if_obtained_ends root ("poster_" +:+ id) pb w1)
    as [(root1 & pshown & ->)|(d & -> & Hne & Hwhat & ->)];
    [|right; eexists w1, _, d; by eauto].
  match goal with |- context [get_cached_image ?u ?p ?h ?w0] =>
    pose proof (get_cached_image_reads_file u p h w0) as Hlfile;
    destruct (get_cached_image_returns u p h w0) as [lb Hret];
    destruct (get_cached_image u p h w0) as [w2 res2] end.
  simpl in *. subst res2.
  destruct (attach_if_obtained_ends root1 ("logo_" +:+ id) lb w2)
    as [(root2 & lshown & ->)|(d & -> & Hne & Hwhat & ->)];
    [left; by eauto|right; eexists w2, _, d; by eauto].
Qed.

Lemma for_each_ends g base items st w :
  (∃ w' st', for_each (process_item what g base) items st w = (w', Ret st'))
  ∨ (∃ w' path d,
        for_each (process_item what g base) items st w
        = (w', Raise (TypeError "Could not guess image MIME subtype"))
        ∧ fs w' !! path = Some (File d true) ∧ d ≠ [] ∧ what d = None).
Proof.
  revert st w. induction items as [|item items IH]; intros st w; [left; by eexists _, _|].
  rewrite for_each_cons.
  destruct (process_item_ends g base item st w)
    as [(w1 & st1 & ->)|(w1 & path & d & -> & Hfile)]; [apply IH|].
  right. by exists w1, path, d.
Qed.

(** C1, as the code has it. Composing ends in one of two ways. Either it
    gives a message whose body is the head of the document, then exactly
    one block for each item among the first ten whose [Id] is present and
    not empty, in the order of the list, then the tail, the other items
    getting no block. Or [MIMEImage] has raised its [TypeError] on an image
    the cache had read, not empty and of no subtype it can guess. *)
Theorem one_block_per_retained_item g items w :
  (∃ w' msg blocks,
      compose what g items w = (w', Ret msg)
      ∧ Forall2 block_of_item (List.filter has_identity (take 10 items)) blocks
      ∧ msg_html msg = Html.head (JELLYFIN_WEB_URL g) +:+ render_all blocks +:+ Html.tail)
  ∨ (∃ w' path d,
        compose what g items w = (w', Raise (TypeError "Could not guess image MIME subtype"))
        ∧ fs w' !! path = Some (File d true) ∧ d ≠ [] ∧ what d = None).
Proof.
  unfold compose, mbind, M_bind.
  destruct (for_each_ends g (jellyfin_base_url (JELLYFIN_API_URL g)) (take 10 items)
              ([], Html.head (JELLYFIN_WEB_URL g)) w)
    as [(w' & [root html] & Hloop)|(w' & path & d & Hloop & Hfile)]; rewrite Hloop.
  - left. apply for_each_adds in Hloop as (blocks & new & Hblocks & -> & _ & _).
    eexists _, _, blocks. split; [reflexivity|]. split; [done|].
    simpl. by rewrite StrFacts.app_assoc.
  - right. by exists w', path, d.
Qed.

(** C7. In a composed message, the [Content-ID] headers of the images
    are pairwise distinct when the identities of the items the message is
    built from (those among the first ten that pass the test of line 119)
    are. *)
Theorem content_ids_distinct g items w w' msg :
  NoDup (omap retained_id (take 10 items)) →
  compose what g items w = (w', Ret msg) →
  NoDup (content_id <$> msg_images msg).
Proof.
  intros Hids. unfold compose, mbind, M_bind.
  destruct (for_each _ _ _ _) as [w1 [[root html]|e]] eqn:Hloop; [|by intros [=]].
  intros [= <- <-]. simpl.
  apply for_each_adds in Hloop as (blocks & new & Hblocks & _ & -> & Hnew).
  simpl. rewrite Hnew.
  eapply block_cids_NoDup; [done|]. by rewrite omap_retained_filter.
Qed.

(** C9, as the code has it. An item that passes the test of line 119
    and for which the cache gives neither poster nor logo still gets its
    block: the opening, the text with its title and type, and the closing,
    with neither of the two [img] fragments and no image attached. The
    block then has an [img] tag only if the title or the type carries one,
    these texts being copied as they are. *)
Theorem item_without_images g base item root html w id :
  retained_id item = Some id →
  let w0 := add_event (processing item id) w in
  let poster := get_cached_image (poster_request base id) (poster_file id) (auth_headers g) w0 in
  let logo := get_cached_image (logo_request base id) (logo_file id) (auth_headers g) poster.1 in
  (∃ image, poster.2 = Ret image ∧ obtained image = None) →
  (∃ image, logo.2 = Ret image ∧ obtained image = None) →
  let block := Html.block None None (item_title item) (item_type item) in
  process_item what g base item (root, html) w = (logo.1, Ret (root, html +:+ block))
  ∧ block = Html.block_open +:+ Html.block_text (item_title item) (item_type item)
              +:+ Html.block_close
  ∧ (∃ a b c, block = a +:+ item_title item +:+ b +:+ item_type item +:+ c)
  ∧ (Str.contains "<img" (item_title item) = false →
     Str.contains "<img" (item_type item) = false →
     Str.contains "<img" block = false).
Proof.
  intros Hid w0 poster logo (pb & Hpb & Hpnone) (lb & Hlb & Hlnone) block.
  split; [|split; [reflexivity|split]].
  - unfold process_item. unfold retained_id in Hid.
    destruct (item !! "Id") as [id'|]; [|done].
    destruct (Str.truthy id'); [|done]. simplify_eq/=.
    unfold mbind, M_bind, print, emit.
    change (get_cached_image _ _ _ (add_event _ w)) with poster.
    destruct poster as [w1 res1] eqn:Hposter. simpl in Hpb. subst res1.
    pose proof (attach_if_obtained_cases root ("poster_" +:+ id) pb w1) as Hp.
    rewrite Hpnone in Hp. rewrite Hp.
    change (get_cached_image _ _ _ w1) with logo.
    destruct logo as [w2 res2] eqn:Hlogo. simpl in Hlb. subst res2.
    pose proof (attach_if_obtained_cases root ("logo_" +:+ id) lb w2) as Hl.
    rewrite Hlnone in Hl. rewrite Hl. reflexivity.
  - exists (Html.block_open +:+ Html.text_lead), Html.text_mid,
      (Html.text_trail +:+ Html.block_close).
    unfold block. by rewrite plain_block_shape, !StrFacts.app_assoc.
  - apply plain_block_no_img.
Qed.

End Composer.

(** * The run, end to end *)

Lemma bind_returned {A B} (m : M A) (f : A → M B) w w' a :
  m w = (w', Ret a) → (m ≫= f) w = f a w'.
Proof. unfold mbind, M_bind. by intros ->. Qed.

(** When the settings are there, the listing has items and the mail session
    goes through, the message composed is the one sent, in one session. *)
Lemma send_jellyfin_email_dispatches what g w w1 item items w2 msg :
  validate required_vars w = (w, Ret true) →
  get_latest_items g w = (w1, Ret (JList (item :: items))) →
  compose what g (item :: items) w1 = (w2, Ret msg) →
  smtp_failure w2 = None →
  (send_jellyfin_email what g w).2 = Ret tt
  ∧ trace (send_jellyfin_email what g w).1 =
      ([EPrint "Email sent successfully!";
        ESmtpQuit;
        ESmtpSendmail (SENDER_EMAIL g) (RECIPIENT_EMAILS g) msg;
        ESmtpLogin (SENDER_EMAIL g) (SENDER_PASSWORD g);
        ESmtpStarttls;
        ESmtpConnect (SMTP_SERVER g) (SMTP_PORT g)] ++ trace w2)%list.
Proof.
  intros Hvalid Hitems Hcompose Hsmtp.
  unfold send_jellyfin_email.
  rewrite (bind_returned _ _ _ _ _ Hvalid). cbn [negb].
  rewrite (bind_returned _ _ _ _ _ Hitems). cbn [negb payload_truthy].
  rewrite (bind_returned _ _ _ _ _ Hcompose).
  unfold try_except, smtp_session, finally, smtp_command, print, emit, mbind, M_bind.
  cbn [add_event smtp_failure]. rewrite Hsmtp. done.
Qed.

Example sample_run :
  (send_jellyfin_email Sample.what Sample.g Sample.media_world).2 = Ret tt
  ∧ List.filter is_smtp (trace (send_jellyfin_email Sample.what Sample.g Sample.media_world).1)
    = [ESmtpQuit;
       ESmtpSendmail "me@example.org" ["a@example.org"; "b@example.org"]
         {| msg_subject := "Now on Jellyfin!";
            msg_from := "me@example.org";
            msg_to := "a@example.org, b@example.org";
            msg_html :=
              Html.head "http://media:8096/web/index.html"
              +:+ Html.block (Some "poster_a1") (Some "logo_a1") "Alien" "Movie"
              +:+ Html.block (Some "poster_b2") (Some "logo_b2") "Dark" "Series"
              +:+ Html.tail;
            msg_images :=
              [ {| content_id := "<poster_a1>"; subtype := "png"; data := Sample.png |};
                {| content_id := "<logo_a1>"; subtype := "png"; data := Sample.png |};
                {| content_id := "<poster_b2>"; subtype := "png"; data := Sample.png |};
                {| content_id := "<logo_b2>"; subtype := "png"; data := Sample.png |} ] |};
       ESmtpLogin "me@example.org" "pw";
       ESmtpStarttls;
       ESmtpConnect "smtp.gmail.com" 587].
Proof. split; vm_compute; reflexivity. Qed.

(** * Examples *)

(** ** The statements at sample inputs *)

Lemma returned_bytes_are_cached_example :
  (get_cached_image Sample.poster_url Sample.poster_path []
     (Sample.world Sample.env Sample.image_answer)).2 = Ret (Some Sample.png)
  ∧ ∃ readable,
      fs (get_cached_image Sample.poster_url Sample.poster_path []
            (Sample.world Sample.env Sample.image_answer)).1 !! Sample.poster_path
        = Some (File Sample.png readable).
Proof.
  split; [reflexivity|].
  apply (returned_bytes_are_cached _ _ _ (Sample.world Sample.env Sample.image_answer)).
  reflexivity.
Defined.

Lemma cache_miss_then_hit_example :
  fs (Sample.world Sample.env Sample.image_answer) !! Sample.poster_path = None
  ∧ http_error {| status_code := 200; content := Sample.png; json := None |} = false
  ∧ (get_cached_image Sample.poster_url Sample.poster_path []
       (Sample.world Sample.env Sample.image_answer)).2 = Ret (Some Sample.png)
  ∧ ∀ url2 headers2,
      (get_cached_image url2 Sample.poster_path headers2
         (get_cached_image Sample.poster_url Sample.poster_path []
            (Sample.world Sample.env Sample.image_answer)).1).2 = Ret (Some Sample.png).
Proof.
  split; [reflexivity|]. split; [reflexivity|].
  destruct (cache_miss_then_hit Sample.poster_url Sample.poster_path []
              (Sample.world Sample.env Sample.image_answer)
              {| status_code := 200; content := Sample.png; json := None |})
    as (Hfirst & _ & _ & Hsecond); [reflexivity..|].
  split; [exact Hfirst|].
  intros url2 headers2. exact (proj1 (Hsecond url2 headers2)).
Defined.

Lemma failed_request_leaves_no_file_example :
  fs (Sample.world Sample.env Sample.not_found) !! Sample.poster_path = None
  ∧ 400 ≤ 404 < 600
  ∧ (get_cached_image Sample.poster_url Sample.poster_path []
       (Sample.world Sample.env Sample.not_found)).2 = Ret None
  ∧ fs (get_cached_image Sample.poster_url Sample.poster_path []
          (Sample.world Sample.env Sample.not_found)).1 = ∅.
Proof.
  split; [reflexivity|]. split; [lia|].
  destruct (failed_request_leaves_no_file Sample.poster_url Sample.poster_path []
              (Sample.world Sample.env Sample.not_found))
    as (Hres & Hfs & _); [reflexivity|simpl; lia|].
  split; [exact Hres|exact Hfs].
Defined.

Lemma listing_failure_gives_empty_example :
  server (Sample.world Sample.env Sample.timeout) 0
    (JELLYFIN_API_URL Sample.g) (auth_headers Sample.g) = Failed "timed out"
  ∧ (get_latest_items Sample.g (Sample.world Sample.env Sample.timeout)).2 = Ret (JList []).
Proof.
  split; [reflexivity|].
  apply (listing_failure_gives_empty Sample.g (Sample.world Sample.env Sample.timeout)).
  exact I.
Defined.

Lemma missing_setting_aborts_example :
  "RECIPIENT_EMAILS" ∈ required_vars
  ∧ unset (Sample.env_without_recipients !! "RECIPIENT_EMAILS") = true
  ∧ ∃ missing,
      missing ∈ required_vars
      ∧ unset (Sample.env_without_recipients !! missing) = true
      ∧ send_jellyfin_email Sample.what Sample.g
          (Sample.world Sample.env_without_recipients Sample.image_answer) =
        (add_event (EPrint ("Error: Environment variable " +:+ missing
                              +:+ " is required but not set."))
           (Sample.world Sample.env_without_recipients Sample.image_answer),
         Ret tt).
Proof.
  assert ("RECIPIENT_EMAILS" ∈ required_vars) as Hin
    by (apply list_elem_of_In; simpl; auto 10).
  split; [exact Hin|]. split; [reflexivity|].
  apply (missing_setting_aborts Sample.what Sample.g
           (Sample.world Sample.env_without_recipients Sample.image_answer)
           "RECIPIENT_EMAILS" Hin).
  reflexivity.
Defined.

Lemma no_items_no_dispatch_example :
  (get_latest_items Sample.g (Sample.world Sample.env Sample.empty_listing)).2 = Ret (JList [])
  ∧ ∃ evs,
      trace (send_jellyfin_email Sample.what Sample.g
               (Sample.world Sample.env Sample.empty_listing)).1 = (evs ++ [])%list
      ∧ Forall (λ ev, is_smtp ev = false) evs.
Proof.
  split; [reflexivity|].
  apply (no_items_no_dispatch Sample.what Sample.g (Sample.world Sample.env Sample.empty_listing)).
  reflexivity.
Defined.

Lemma one_block_per_retained_item_example :
  ∃ w' msg blocks,
    compose Sample.what Sample.g [Sample.movie; Sample.blank; Sample.series]
      (Sample.world Sample.env Sample.image_answer) = (w', Ret msg)
    ∧ Forall2 block_of_item [Sample.movie; Sample.series] blocks
    ∧ msg_html msg = Html.head (JELLYFIN_WEB_URL Sample.g) +:+ render_all blocks +:+ Html.tail.
Proof.
  destruct (one_block_per_retained_item Sample.what Sample.g
              [Sample.movie; Sample.blank; Sample.series]
              (Sample.world Sample.env Sample.image_answer))
    as [Hblocks|(w' & path & d & Hrun & _)]; [exact Hblocks|].
  vm_compute in Hrun. discriminate Hrun.
Defined.

Lemma content_ids_distinct_example :
  NoDup (omap retained_id (take 10 [Sample.movie; Sample.blank; Sample.series]))
  ∧ (content_id <$>
       match (compose Sample.what Sample.g [Sample.movie; Sample.blank; Sample.series]
                (Sample.world Sample.env Sample.image_answer)).2 with
       | Ret msg => msg_images msg
       | Raise _ => []
       end) = ["<poster_a1>"; "<logo_a1>"; "<poster_b2>"; "<logo_b2>"]
  ∧ NoDup ["<poster_a1>"; "<logo_a1>"; "<poster_b2>"; "<logo_b2>"].
Proof.
  assert (NoDup (omap retained_id (take 10 [Sample.movie; Sample.blank; Sample.series]))) as Hids.
  { apply (NoDup_cons_2 "a1"); [|apply NoDup_singleton].
    intros H%list_elem_of_singleton. discriminate H. }
  split; [exact Hids|]. split; [reflexivity|].
  destruct (compose Sample.what Sample.g [Sample.movie; Sample.blank; Sample.series]
              (Sample.world Sample.env Sample.image_answer)) as [w' [msg|e]] eqn:Hrun;
    [|discriminate Hrun].
  assert (content_id <$> msg_images msg =
          ["<poster_a1>"; "<logo_a1>"; "<poster_b2>"; "<logo_b2>"]) as <-.
  { injection Hrun as _ <-. reflexivity. }
  exact (content_ids_distinct Sample.what Sample.g _ _ w' msg Hids Hrun).
Defined.

Lemma item_without_images_example :
  retained_id Sample.movie = Some "a1"
  ∧ (get_cached_image (poster_request "http://media:8096" "a1") (poster_file "a1")
       (auth_headers Sample.g)
       (add_event (processing Sample.movie "a1") (Sample.world Sample.env Sample.not_found))).2
      = Ret None
  ∧ (process_item Sample.what Sample.g "http://media:8096" Sample.movie ([], EmptyString)
       (Sample.world Sample.env Sample.not_found)).2
      = Ret ([], Html.block None None "Alien" "Movie")
  ∧ Str.contains "<img" (Html.block None None "Alien" "Movie") = false.
Proof.
  split; [reflexivity|]. split; [reflexivity|].
  destruct (item_without_images Sample.what Sample.g "http://media:8096" Sample.movie
              [] EmptyString (Sample.world Sample.env Sample.not_found) "a1")
    as (Hrun & _ & _ & Himg);
    [reflexivity | by exists None | by exists None |].
  split; [by rewrite Hrun|].
  apply Himg; reflexivity.
Defined.

(** ** Inputs at which the code departs from the specification's words *)

(** C1: an item whose [Id] is present and empty has an identity field, and
    gets no block: the message composed from it alone is the bare
    document. *)
Lemma blank_identity_gets_no_block :
  is_Some (Sample.blank !! "Id")
  ∧ ∃ msg,
      (compose Sample.what Sample.g [Sample.blank]
         (Sample.world Sample.env Sample.image_answer)).2 = Ret msg
      ∧ msg_html msg = Html.head (JELLYFIN_WEB_URL Sample.g) +:+ Html.tail
      ∧ msg_images msg = [].
Proof. split; [by eexists|]. eexists. split; [reflexivity|]. split; reflexivity. Qed.

(** C3: the status 300 is not a 2xx one, and the listing that comes with
    it is returned all the same. *)
Lemma status_300_listing_is_returned :
  ¬ (200 ≤ 300 < 300)
  ∧ (get_latest_items Sample.g (Sample.world Sample.env Sample.multiple_choices)).2
      = Ret (JList [Sample.movie])
  ∧ JList [Sample.movie] ≠ JList [].
Proof. split; [lia|]. split; [reflexivity|discriminate]. Qed.

(** C5: the status 300 is not a 2xx one, and the body that comes with it
    is written to the cache and returned. *)
Lemma status_300_image_is_cached :
  ¬ (200 ≤ 300 < 300)
  ∧ fs (Sample.world Sample.env Sample.multiple_choices) !! Sample.poster_path = None
  ∧ (get_cached_image Sample.poster_url Sample.poster_path []
       (Sample.world Sample.env Sample.multiple_choices)).2 = Ret (Some Sample.png)
  ∧ fs (get_cached_image Sample.poster_url Sample.poster_path []
          (Sample.world Sample.env Sample.multiple_choices)).1 !! Sample.poster_path
      = Some (File Sample.png true).
Proof. split; [lia|]. repeat split; reflexivity. Qed.

(** C9: neither image of the item is obtained, and its block has an [img]
    tag, the one its title is. *)
Lemma markup_title_brings_img :
  retained_id Sample.markup = Some "c3"
  ∧ (get_cached_image (poster_request "http://media:8096" "c3") (poster_file "c3")
       (auth_headers Sample.g)
       (add_event (processing Sample.markup "c3") (Sample.world Sample.env Sample.not_found))).2
      = Ret None
  ∧ (get_cached_image (logo_request "http://media:8096" "c3") (logo_file "c3")
       (auth_headers Sample.g)
       (get_cached_image (poster_request "http://media:8096" "c3") (poster_file "c3")
          (auth_headers Sample.g)
          (add_event (processing Sample.markup "c3")
             (Sample.world Sample.env Sample.not_found))).1).2
      = Ret None
  ∧ ∃ block,
      (process_item Sample.what Sample.g "http://media:8096" Sample.markup ([], EmptyString)
         (Sample.world Sample.env Sample.not_found)).2 = Ret ([], block)
      ∧ Str.contains "<img" block = true.
Proof. repeat split; try reflexivity. eexists. split; reflexivity. Qed.

(** * Further properties of the script *)

(** ** The listing fetcher *)

(** X1. [get_latest_items] never raises; it sends exactly one request, to
    the configured endpoint with the token header, and leaves the file
    system as it was. *)
Theorem get_latest_items_one_request g w :
  (∃ items, (get_latest_items g w).2 = Ret items)
  ∧ requests_made (get_latest_items g w).1 = S (requests_made w)
  ∧ fs (get_latest_items g w).1 = fs w
  ∧ List.filter is_get (trace (get_latest_items g w).1)
    = (EGet (JELLYFIN_API_URL g) (auth_headers g) :: List.filter is_get (trace w)).
Proof. run. cases; eauto. Qed.

(** X2. When the server answers the listing request with a status that is
    no error and a body that decodes, [get_latest_items] returns the decoded
    value as it is, whatever it is, and prints nothing. *)
Theorem get_latest_items_returns_listing g w r listing :
  server w (requests_made w) (JELLYFIN_API_URL g) (auth_headers g) = Responded r →
  http_error r = false →
  json r = Some listing →
  (get_latest_items g w).2 = Ret listing
  ∧ trace (get_latest_items g w).1 = EGet (JELLYFIN_API_URL g) (auth_headers g) :: trace w.
Proof.
  intros Hserver Hok Hjson. unfold get_latest_items, requests_get, raise_for_status,
    response_json, try_except, mbind, M_bind, mret, M_ret.
  by rewrite Hserver, Hok, Hjson.
Qed.

(** ** The image cache *)

(** X3. [get_cached_image] never raises and sends at most one request;
    whatever happens, every file that existed before the call is still
    there with the same contents, and the only path at which a file may
    have appeared is the cache path. *)
Theorem get_cached_image_only_adds url path headers w :
  let w' := (get_cached_image url path headers w).1 in
  (∃ image, (get_cached_image url path headers w).2 = Ret image)
  ∧ (requests_made w' ≤ S (requests_made w))%nat
  ∧ (∀ p n, fs w !! p = Some n → fs w' !! p = Some n)
  ∧ (∀ p, p ≠ path → fs w' !! p = fs w !! p).
Proof.
  run. destruct (fs w !! path) as [n0|] eqn:Hpath; simpl;
    cases; (split; [eauto|]); (split; [lia|]); split; try done.
  all: first [ intros p n Hp; destruct (decide (path = p)) as [->|];
               [congruence | by rewrite lookup_insert_ne]
             | intros p Hp; by rewrite lookup_insert_ne ].
Qed.

(** X4. When something exists at the cache path, [get_cached_image] asks
    the server nothing and changes no file; it returns the contents if that
    is a file that can be read, and [None] if it is a directory or a file
    that cannot be read. *)
Theorem cache_hit_is_local url path headers w n :
  fs w !! path = Some n →
  let w' := (get_cached_image url path headers w).1 in
  (get_cached_image url path headers w).2 =
    Ret (match n with File d true => Some d | _ => None end)
  ∧ requests_made w' = requests_made w
  ∧ fs w' = fs w
  ∧ List.filter is_get (trace w') = List.filter is_get (trace w).
Proof.
  intros Hn. run. rewrite Hn. simpl. rewrite Hn.
  destruct n as [d [|]|]; done.
Qed.

(** X5. When the download succeeds and the file cannot be created, the
    image is reported absent and nothing is written: the cache path is
    still free, so the next call asks the server again. *)
Theorem unwritable_cache_gives_absent url path headers w r :
  fs w !! path = None →
  server w (requests_made w) url headers = Responded r →
  http_error r = false →
  creatable w path = false →
  let w' := (get_cached_image url path headers w).1 in
  (get_cached_image url path headers w).2 = Ret None
  ∧ fs w' = fs w
  ∧ requests_made w' = S (requests_made w).
Proof.
  intros Hnone Hserver Hok Hcreate.
  run. rewrite Hnone. simpl. rewrite Hserver. simpl. rewrite Hok. simpl.
  by rewrite Hnone, Hcreate.
Qed.

(** X6. An answer that is no error and has an empty body is cached as an
    empty file. The call returns the empty bytes, which the loop takes for
    no image; every later call finds the empty file, asks the server
    nothing and returns the empty bytes again. *)
Theorem empty_body_is_cached url path headers w r :
  fs w !! path = None →
  server w (requests_made w) url headers = Responded r →
  http_error r = false →
  content r = [] →
  creatable w path = true →
  let w1 := (get_cached_image url path headers w).1 in
  (get_cached_image url path headers w).2 = Ret (Some [])
  ∧ obtained (Some []) = None
  ∧ fs w1 !! path = Some (File [] true)
  ∧ ∀ url2 headers2,
      (get_cached_image url2 path headers2 w1).2 = Ret (Some [])
      ∧ requests_made (get_cached_image url2 path headers2 w1).1 = requests_made w1.
Proof.
  intros Hnone Hserver Hok Hempty Hcreate.
  run. rewrite Hnone. simpl. rewrite Hserver. simpl. rewrite Hok. simpl.
  rewrite Hnone, Hcreate, Hempty. simpl. rewrite lookup_insert_eq. simpl.
  repeat split; try done.
  all: rewrite lookup_insert_eq; simpl; by rewrite ?lookup_insert_eq.
Qed.

(** ** Stretches of a run that only add *)

Section After.

Context {P : event → Prop}.

Lemma after_refl w : after P w w.
Proof. split; try done. by exists []. Qed.

Lemma after_trans w1 w2 w3 : after P w1 w2 → after P w2 w3 → after P w1 w3.
Proof.
  intros [He Hc Hs Hm Hr Hf (evs & Ht & Hevs)] [He' Hc' Hs' Hm' Hr' Hf' (evs' & Ht' & Hevs')].
  split; try congruence; [lia|auto|].
  exists (evs' ++ evs)%list. split; [by rewrite Ht', Ht, app_assoc|by apply Forall_app].
Qed.

Lemma after_event ev w : P ev → after P w (add_event ev w).
Proof. intros Hev. split; try done. exists [ev]. split; [done|by constructor]. Qed.

Lemma keeps_ret {A} (a : A) : keeps P (mret a).
Proof. intros w. apply after_refl. Qed.

Lemma keeps_raise {A} e : keeps P (@raise A e).
Proof. intros w. apply after_refl. Qed.

Lemma keeps_emit ev : P ev → keeps P (emit ev).
Proof. intros Hev w. by apply after_event. Qed.

Lemma keeps_bind {A B} (m : M A) (f : A → M B) :
  keeps P m → (∀ a, keeps P (f a)) → keeps P (m ≫= f).
Proof.
  intros Hm Hf w. unfold mbind, M_bind. specialize (Hm w).
  destruct (m w) as [w' [a|e]]; [|done].
  eapply after_trans; [exact Hm|apply Hf].
Qed.

Lemma keeps_try_except {A} (body : M A) handler :
  keeps P body → (∀ e, keeps P (handler e)) → keeps P (try_except body handler).
Proof.
  intros Hbody Hhandler w. unfold try_except. specialize (Hbody w).
  destruct (body w) as [w' [a|e]]; [done|].
  eapply after_trans; [exact Hbody|apply Hhandler].
Qed.

Lemma keeps_finally {A} (body : M A) cleanup :
  keeps P body → keeps P cleanup → keeps P (finally body cleanup).
Proof.
  intros Hbody Hcleanup w. unfold finally. specialize (Hbody w).
  destruct (body w) as [w' r]. specialize (Hcleanup w').
  destruct (cleanup w') as [w'' [[]|e]]; by eapply after_trans.
Qed.

Lemma keeps_for_each {A S} (body : A → S → M S) l s :
  (∀ x s, keeps P (body x s)) → keeps P (for_each body l s).
Proof.
  intros Hbody. revert s. induction l as [|x l IH]; intros s; [apply keeps_ret|].
  simpl. apply keeps_bind; [apply Hbody|apply IH].
Qed.

Lemma grown_nil (t : list event) : ∃ evs, t = (evs ++ t)%list ∧ Forall P evs.
Proof. by exists []. Qed.

Lemma grown_cons ev (l t : list event) :
  (∃ evs, l = (evs ++ t)%list ∧ Forall P evs) → P ev →
  ∃ evs, ev :: l = (evs ++ t)%list ∧ Forall P evs.
Proof. intros (evs & -> & Hevs) Hev. exists (ev :: evs). split; [done|by constructor]. Qed.

End After.

Lemma after_weaken (P Q : event → Prop) w w' :
  (∀ ev, P ev → Q ev) → after P w w' → after Q w w'.
Proof.
  intros HPQ [He Hc Hs Hm Hr Hf (evs & Ht & Hevs)]. split; try done.
  exists evs. split; [done|]. eapply Forall_impl; eauto.
Qed.

Lemma keeps_weaken {A} (P Q : event → Prop) (m : M A) :
  (∀ ev, P ev → Q ev) → keeps P m → keeps Q m.
Proof. intros HPQ Hm w. eapply after_weaken; eauto. Qed.

Lemma quiet_authenticated g ev : quiet g ev → authenticated g ev.
Proof. by destruct ev. Qed.

(** Solves [after P w w'] for a world [w'] written out from [w]. *)
Ltac grown :=
  split; simpl;
  first [ done
        | lia
        | intros p n0 Hp;
          match goal with
          | Hnone : fs _ !! ?path = None |- _ =>
              destruct (decide (path = p)) as [->|];
              [congruence | by rewrite lookup_insert_ne]
          end
        | repeat (apply grown_cons; [|done]); apply grown_nil ].

Lemma get_latest_items_keeps g : keeps (quiet g) (get_latest_items g).
Proof. intros w. run. cases; grown. Qed.

Lemma get_cached_image_keeps g url path :
  keeps (quiet g) (get_cached_image url path (auth_headers g)).
Proof.
  intros w. run. destruct (fs w !! path) as [n|] eqn:Hpath; simpl; cases; grown.
Qed.

Lemma validate_keeps g vars : keeps (quiet g) (validate vars).
Proof.
  induction vars as [|var vars IH]; [apply keeps_ret|].
  simpl. apply keeps_bind; [intros w; apply after_refl|].
  intros value. destruct (unset value); [|done].
  apply keeps_bind; [by apply keeps_emit|]. intros _. apply keeps_ret.
Qed.

Lemma smtp_session_keeps g msg : keeps (authenticated g) (smtp_session g msg).
Proof.
  assert (∀ stage ev, authenticated g ev → keeps (authenticated g) (smtp_command stage ev)) as Hcmd.
  { intros stage ev Hev w. unfold smtp_command. simpl. by apply after_event. }
  unfold smtp_session.
  apply keeps_bind; [by apply Hcmd|]. intros _.
  apply keeps_finally; [|by apply keeps_emit].
  repeat (apply keeps_bind; [by apply Hcmd|]; intros _). by apply Hcmd.
Qed.

Section RunKeeps.

Variable what : bytes → option string.

Lemma attach_if_obtained_keeps P root cid image :
  keeps P (attach_if_obtained what root cid image).
Proof.
  intros w. pose proof (attach_if_obtained_cases what root cid image w) as H.
  destruct (obtained image) as [d|]; [destruct (what d); [|destruct H as [e H]]|];
    rewrite H; apply after_refl.
Qed.

Lemma process_item_keeps g base item st : keeps (quiet g) (process_item what g base item st).
Proof.
  destruct st as [root html]. unfold process_item.
  destruct (item !! "Id") as [id|]; [|apply keeps_ret].
  destruct (Str.truthy id); simpl; [|apply keeps_ret].
  apply keeps_bind; [by apply keeps_emit|]. intros _.
  apply keeps_bind; [apply get_cached_image_keeps|]. intros poster_bytes.
  apply keeps_bind; [apply attach_if_obtained_keeps|]. intros [root1 poster_cid].
  apply keeps_bind; [apply get_cached_image_keeps|]. intros logo_bytes.
  apply keeps_bind; [apply attach_if_obtained_keeps|]. intros [root2 logo_cid].
  apply keeps_ret.
Qed.

Lemma compose_keeps g items : keeps (quiet g) (compose what g items).
Proof.
  unfold compose. apply keeps_bind.
  - apply keeps_for_each. intros item st. apply process_item_keeps.
  - intros [root html]. apply keeps_ret.
Qed.

Lemma send_jellyfin_email_keeps g : keeps (authenticated g) (send_jellyfin_email what g).
Proof.
  unfold send_jellyfin_email.
  apply keeps_bind.
  { eapply keeps_weaken; [apply quiet_authenticated|apply validate_keeps]. }
  intros valid. destruct valid; simpl; [|apply keeps_ret].
  apply keeps_bind.
  { eapply keeps_weaken; [apply quiet_authenticated|apply get_latest_items_keeps]. }
  intros listing. destruct (payload_truthy listing); simpl; [|by apply keeps_emit].
  destruct listing as [items|truth]; [|apply keeps_raise].
  apply keeps_bind.
  { eapply keeps_weaken; [apply quiet_authenticated|apply compose_keeps]. }
  intros msg. apply keeps_try_except.
  - apply keeps_bind; [apply smtp_session_keeps|]. intros _. by apply keeps_emit.
  - intros e. by apply keeps_emit.
Qed.

(** X7. Whatever the outcome of a run, an exception included, every file
    that existed before it is still there with the same contents, and the
    environment is as it was: the script only ever adds files. *)
Theorem run_keeps_existing_files g w :
  environ (send_jellyfin_email what g w).1 = environ w
  ∧ ∀ path n, fs w !! path = Some n → fs (send_jellyfin_email what g w).1 !! path = Some n.
Proof. destruct (send_jellyfin_email_keeps g w). by split. Qed.

(** X8. Every request a run sends, for the listing and for the images,
    carries the token header. *)
Theorem run_requests_carry_token g w :
  ∃ evs, trace (send_jellyfin_email what g w).1 = (evs ++ trace w)%list
         ∧ ∀ url headers, EGet url headers ∈ evs → headers = auth_headers g.
Proof.
  destruct (send_jellyfin_email_keeps g w) as [_ _ _ _ _ _ (evs & Htrace & Hevs)].
  exists evs. split; [done|].
  intros url headers Hin. rewrite Forall_forall in Hevs. exact (Hevs _ Hin).
Qed.

End RunKeeps.

Lemma quiet_not_smtp g ev : quiet g ev → is_smtp ev = false.
Proof. by destruct ev. Qed.

Lemma validate_first pre var rest w :
  Forall (λ v, unset (environ w !! v) = false) pre →
  unset (environ w !! var) = true →
  validate (pre ++ var :: rest) w =
    (add_event (EPrint ("Error: Environment variable " +:+ var +:+ " is required but not set.")) w,
     Ret false).
Proof.
  intros Hpre Hvar. induction Hpre as [|v pre Hv _ IH]; simpl.
  - unfold mbind, M_bind, os_getenv. by rewrite Hvar.
  - unfold mbind, M_bind, os_getenv at 1. by rewrite Hv.
Qed.

Section RunCases.

Variable what : bytes → option string.

(** X9. The settings are checked in a fixed order and the check stops at
    the first one that is missing: that one is named on the console, the
    ones after it are not looked at, and the run ends there. *)
Theorem first_missing_setting_is_reported g w pre var rest :
  required_vars = (pre ++ var :: rest)%list →
  Forall (λ v, unset (environ w !! v) = false) pre →
  unset (environ w !! var) = true →
  send_jellyfin_email what g w =
    (add_event (EPrint ("Error: Environment variable " +:+ var +:+ " is required but not set.")) w,
     Ret tt).
Proof.
  intros Hvars Hpre Hvar. unfold send_jellyfin_email.
  rewrite Hvars. by rewrite (bind_returned _ _ _ _ _ (validate_first pre var rest w Hpre Hvar)).
Qed.

(** X10. An image that was obtained and whose subtype cannot be guessed
    ends the processing of its item with the [TypeError] of [MIMEImage]:
    the item gets no block and the logo is not asked for. *)
Theorem unrecognised_poster_raises g base item root html w id d :
  retained_id item = Some id →
  let poster := get_cached_image (poster_request base id) (poster_file id) (auth_headers g)
                  (add_event (processing item id) w) in
  poster.2 = Ret (Some d) →
  d ≠ [] →
  what d = None →
  process_item what g base item (root, html) w
  = (poster.1, Raise (TypeError "Could not guess image MIME subtype")).
Proof.
  intros Hid poster Hposter Hd Hwhat.
  unfold process_item. unfold retained_id in Hid.
  destruct (item !! "Id") as [id'|]; [|done].
  destruct (Str.truthy id'); [|done]. simplify_eq/=.
  unfold mbind, M_bind, print, emit.
  change (get_cached_image _ _ _ (add_event _ w)) with poster.
  destruct poster as [w1 res1]. simpl in Hposter. subst res1.
  pose proof (attach_if_obtained_cases what root ("poster_" +:+ id) (Some d) w1) as Hp.
  destruct d as [|b d]; [done|]. simpl in Hp. rewrite Hwhat in Hp.
  destruct Hp as [e Hp].
  unfold attach_if_obtained, attach_image in *. simpl in *. rewrite Hwhat in *.
  reflexivity.
Qed.

(** X11. Nothing guards the composing: when it raises, the run raises the
    same exception, and no command of a mail session was performed. *)
Theorem composing_failure_sends_nothing g w w1 items w2 e :
  validate required_vars w = (w, Ret true) →
  get_latest_items g w = (w1, Ret (JList items)) →
  items ≠ [] →
  compose what g items w1 = (w2, Raise e) →
  send_jellyfin_email what g w = (w2, Raise e)
  ∧ ∃ evs, trace w2 = (evs ++ trace w)%list ∧ Forall (λ ev, is_smtp ev = false) evs.
Proof.
  intros Hvalid Hitems Hne Hcompose. split.
  - unfold send_jellyfin_email.
    rewrite (bind_returned _ _ _ _ _ Hvalid). cbn [negb].
    rewrite (bind_returned _ _ _ _ _ Hitems).
    destruct items as [|item items]; [done|]. cbn [negb payload_truthy].
    unfold mbind, M_bind. by rewrite Hcompose.
  - pose proof (get_latest_items_keeps g w) as H1. rewrite Hitems in H1.
    pose proof (compose_keeps what g items w1) as H2. rewrite Hcompose in H2.
    destruct (after_trans _ _ _ H1 H2) as [_ _ _ _ _ _ (evs & Htrace & Hevs)].
    exists evs. split; [done|]. eapply Forall_impl; [exact Hevs|apply quiet_not_smtp].
Qed.

(** X12. A mail session that fails, at whatever stage, does not make the
    run fail: the function returns, the failure is printed, the session is
    ended if it had been opened, and the message was handed over only if the
    failure came from [sendmail] itself. *)
Theorem delivery_failure_is_reported g w w1 item items w2 msg stage :
  validate required_vars w = (w, Ret true) →
  get_latest_items g w = (w1, Ret (JList (item :: items))) →
  compose what g (item :: items) w1 = (w2, Ret msg) →
  smtp_failure w2 = Some stage →
  (send_jellyfin_email what g w).2 = Ret tt
  ∧ trace (send_jellyfin_email what g w).1 =
      (EPrintExn "Failed to send email: " (SMTPException stage)
         :: failed_session g msg stage ++ trace w2)%list.
Proof.
  intros Hvalid Hitems Hcompose Hsmtp.
  unfold send_jellyfin_email.
  rewrite (bind_returned _ _ _ _ _ Hvalid). cbn [negb].
  rewrite (bind_returned _ _ _ _ _ Hitems). cbn [negb payload_truthy].
  rewrite (bind_returned _ _ _ _ _ Hcompose).
  unfold try_except, smtp_session, finally, smtp_command, print, print_exn, emit, mbind, M_bind.
  cbn [add_event smtp_failure]. rewrite Hsmtp.
  by destruct stage.
Qed.

Lemma for_each_filter g base items st w :
  for_each (process_item what g base) items st w
  = for_each (process_item what g base) (List.filter has_identity items) st w.
Proof.
  revert st w. induction items as [|item items IH]; intros st w; [done|].
  cbn [List.filter]. unfold has_identity at 1.
  destruct (retained_id item) as [id|] eqn:Hid.
  - rewrite !for_each_cons.
    destruct (process_item what g base item st w) as [w1 [st1|e]]; [apply IH|done].
  - rewrite for_each_cons, process_item_skips by done. apply IH.
Qed.

(** X13. The items are cut to the first ten before the ones without an
    identity are passed over: composing a list is composing the items with
    an identity among its first ten, so an item without identity among
    them takes a place that no later item gets. *)
Theorem compose_truncates_then_skips g items w :
  compose what g items w = compose what g (List.filter has_identity (take 10 items)) w.
Proof.
  unfold compose.
  assert (take 10 (List.filter has_identity (take 10 items))
          = List.filter has_identity (take 10 items)) as ->.
  { apply take_ge. etrans; [apply List.filter_length_le|]. rewrite length_take. lia. }
  unfold mbind, M_bind. by rewrite <- for_each_filter.
Qed.

End RunCases.

(** ** How much a run asks and attaches *)

Lemma within_ret {A} (a : A) : within 0 (mret a).
Proof. intros w. simpl. lia. Qed.

Lemma within_weaken {A} n n' (m : M A) : (n ≤ n')%nat → within n m → within n' m.
Proof. intros Hle Hm w. specialize (Hm w). lia. Qed.

Lemma within_bind {A B} a b (m : M A) (f : A → M B) :
  within a m → (∀ x, within b (f x)) → within (a + b) (m ≫= f).
Proof.
  intros Hm Hf w. unfold mbind, M_bind. specialize (Hm w).
  destruct (m w) as [w' [x|e]]; simpl in *; [|lia].
  specialize (Hf x w'). lia.
Qed.

Lemma within_try_except {A} a b (body : M A) handler :
  within a body → (∀ e, within b (handler e)) → within (a + b) (try_except body handler).
Proof.
  intros Hbody Hhandler w. unfold try_except. specialize (Hbody w).
  destruct (body w) as [w' [x|e]]; simpl in *; [lia|].
  specialize (Hhandler e w'). lia.
Qed.

Lemma within_for_each {A S} k (body : A → S → M S) l s :
  (∀ x s, within k (body x s)) → within (k * length l) (for_each body l s).
Proof.
  intros Hbody. revert s. induction l as [|x l IH]; intros s.
  - eapply within_weaken; [|apply within_ret]. lia.
  - simpl. eapply within_weaken; [|apply within_bind; [apply Hbody|apply IH]]. lia.
Qed.

Lemma within_zero {A} (m : M A) :
  (∀ w, requests_made (m w).1 = requests_made w) → within 0 m.
Proof. intros H w. rewrite H. lia. Qed.

Lemma get_cached_image_within url path headers : within 1 (get_cached_image url path headers).
Proof. intros w. run. cases; lia. Qed.

Lemma get_latest_items_within g : within 1 (get_latest_items g).
Proof. intros w. run. cases; lia. Qed.

Lemma validate_within vars : within 0 (validate vars).
Proof.
  apply within_zero. induction vars as [|var vars IH]; intros w; [done|].
  simpl. unfold mbind, M_bind, os_getenv, print, emit. simpl.
  destruct (unset (environ w !! var)); [done|apply IH].
Qed.

Lemma smtp_session_within g msg : within 0 (smtp_session g msg).
Proof.
  apply within_zero. intros w.
  unfold smtp_session, finally, smtp_command, emit, mbind, M_bind. simpl.
  repeat (case_bool_decide; simpl; try done).
Qed.

Lemma length_block_cids b : (length (block_cids b) ≤ 2)%nat.
Proof.
  unfold block_cids. rewrite length_fmap, length_app.
  destruct (blk_poster b), (blk_logo b); simpl; lia.
Qed.

Lemma length_bind_block_cids blocks : (length (blocks ≫= block_cids) ≤ 2 * length blocks)%nat.
Proof.
  induction blocks as [|b blocks IH]; [done|].
  rewrite bind_cons, length_app. pose proof (length_block_cids b). simpl. lia.
Qed.

Section RunBounds.

Variable what : bytes → option string.

Lemma attach_if_obtained_within root cid image :
  within 0 (attach_if_obtained what root cid image).
Proof.
  apply within_zero. intros w.
  pose proof (attach_if_obtained_cases what root cid image w) as H.
  destruct (obtained image) as [d|]; [destruct (what d); [|destruct H as [e H]]|];
    by rewrite H.
Qed.

Lemma process_item_within g base item st : within 2 (process_item what g base item st).
Proof.
  destruct st as [root html]. unfold process_item.
  destruct (item !! "Id") as [id|]; [|eapply within_weaken; [|apply within_ret]; lia].
  destruct (Str.truthy id); simpl; [|eapply within_weaken; [|apply within_ret]; lia].
  apply (within_bind 0 2); [by apply within_zero|]. intros _.
  apply (within_bind 1 1); [apply get_cached_image_within|]. intros poster_bytes.
  apply (within_bind 0 1); [apply attach_if_obtained_within|]. intros [root1 poster_cid].
  apply (within_bind 1 0); [apply get_cached_image_within|]. intros logo_bytes.
  apply (within_bind 0 0); [apply attach_if_obtained_within|]. intros [root2 logo_cid].
  apply within_ret.
Qed.

Lemma compose_within g items : within 20 (compose what g items).
Proof.
  unfold compose. apply (within_bind 20 0); [|intros [root html]; apply within_ret].
  eapply within_weaken; [|apply (within_for_each 2); intros; apply process_item_within].
  rewrite length_take. lia.
Qed.

(** X14. A run sends at most 21 requests, one for the listing and two for
    each of at most ten items, however long the listing is and however the
    run ends. *)
Theorem run_sends_at_most_21_requests g w :
  (requests_made (send_jellyfin_email what g w).1 ≤ requests_made w + 21)%nat.
Proof.
  revert w. change (within 21 (send_jellyfin_email what g)).
  unfold send_jellyfin_email.
  apply (within_bind 0 21); [apply validate_within|].
  intros valid. destruct valid; simpl; [|eapply within_weaken; [|apply within_ret]; lia].
  apply (within_bind 1 20); [apply get_latest_items_within|].
  intros listing.
  destruct (payload_truthy listing); simpl;
    [|eapply within_weaken; [|by apply within_zero]; lia].
  destruct listing as [items|truth];
    [|eapply within_weaken; [|by apply within_zero]; lia].
  apply (within_bind 20 0); [apply compose_within|].
  intros msg. apply (within_try_except 0 0); [|by intros e; apply within_zero].
  apply (within_bind 0 0); [apply smtp_session_within|]. intros _. by apply within_zero.
Qed.

(** X15. A composed message carries at most 20 images, two for each of at
    most ten items. *)
Theorem message_has_at_most_20_images g items w w' msg :
  compose what g items w = (w', Ret msg) →
  (length (msg_images msg) ≤ 20)%nat.
Proof.
  unfold compose, mbind, M_bind.
  destruct (for_each _ _ _ _) as [w1 [[root html]|e]] eqn:Hloop; [|by intros [=]].
  intros [= <- <-]. simpl.
  apply for_each_adds in Hloop as (blocks & new & Hblocks & _ & -> & Hnew).
  apply Forall2_length in Hblocks.
  apply (f_equal length) in Hnew. rewrite length_fmap in Hnew.
  pose proof (length_bind_block_cids blocks) as Hcids.
  pose proof (List.filter_length_le has_identity (take 10 items)) as Hfilter.
  rewrite length_take in Hfilter. simpl. lia.
Qed.

End RunBounds.

(** ** Cache paths and recipients *)

Module PathFacts.
Import Str.

Lemma app_last_inj a b s t :
  s +:+ String a EmptyString = t +:+ String b EmptyString → s = t ∧ a = b.
Proof.
  revert t. induction s as [|c s IH]; intros [|c' t]; rewrite ?StrFacts.app_cons.
  - by intros [= ->].
  - intros [= _ H]. by destruct t.
  - intros [= _ H]. by destruct s.
  - intros [= -> H]. destruct (IH _ H) as [-> ->]. done.
Qed.

Lemma app_inv_tail s t u : s +:+ u = t +:+ u → s = t.
Proof.
  revert s t. induction u as [|c u IH]; intros s t H.
  - by rewrite !StrFacts.app_nil_r in H.
  - change (String c u) with (String c EmptyString +:+ u) in H.
    rewrite <- !StrFacts.app_assoc in H. apply IH in H.
    by apply app_last_inj in H as [-> _].
Qed.

Lemma jpg_is_not_png s t : s +:+ ".jpg" ≠ t +:+ ".png".
Proof.
  intros H.
  change ".jpg" with (".j" +:+ "p" +:+ "g") in H.
  change ".png" with (".p" +:+ "n" +:+ "g") in H.
  rewrite <- !StrFacts.app_assoc in H.
  apply app_last_inj in H as [H _]. by apply app_last_inj in H as [_ [=]].
Qed.

(** Where [os.path.join] puts a file name under a cache directory. *)
Lemma join_under_cache dir name :
  dir = POSTER_CACHE_DIR ∨ dir = LOGO_CACHE_DIR →
  os_path_join dir name = if startswith "/" name then name else dir +:+ "/" +:+ name.
Proof. intros [-> | ->]; unfold os_path_join; by destruct (startswith "/" name). Qed.

Lemma startswith_slash_app id ext :
  ext ≠ EmptyString → startswith "/" ext = false →
  startswith "/" (id +:+ ext) = startswith "/" id.
Proof. intros Hne Hext. destruct id as [|c id]; [|done]. done. Qed.

End PathFacts.

(** X16. The cache file of an item lies in the directory of its kind,
    named after the identity, unless the identity begins with a slash: then
    [os.path.join] drops the directory and the file is the identity itself
    with the extension, outside the cache. *)
Theorem cache_file_location id :
  poster_file id = (if Str.startswith "/" id then id +:+ ".jpg"
                    else "cache/posters/" +:+ id +:+ ".jpg")
  ∧ logo_file id = (if Str.startswith "/" id then id +:+ ".png"
                    else "cache/logos/" +:+ id +:+ ".png").
Proof.
  unfold poster_file, logo_file.
  rewrite !PathFacts.join_under_cache by auto.
  rewrite !PathFacts.startswith_slash_app by done.
  by destruct (Str.startswith "/" id).
Qed.

Lemma poster_file_cases id :
  poster_file id = (if Str.startswith "/" id then id +:+ ".jpg"
                    else "cache/posters/" +:+ id +:+ ".jpg").
Proof.
  unfold poster_file. rewrite PathFacts.join_under_cache by auto.
  rewrite PathFacts.startswith_slash_app by done.
  by destruct (Str.startswith "/" id).
Qed.

Lemma logo_file_cases id :
  logo_file id = (if Str.startswith "/" id then id +:+ ".png"
                  else "cache/logos/" +:+ id +:+ ".png").
Proof.
  unfold logo_file. rewrite PathFacts.join_under_cache by auto.
  rewrite PathFacts.startswith_slash_app by done.
  by destruct (Str.startswith "/" id).
Qed.

Lemma under_directory_not_absolute dir id id' :
  Str.startswith "/" dir = false → dir ≠ EmptyString →
  Str.startswith "/" id' = true → dir +:+ id ≠ id'.
Proof.
  intros Hdir Hne Hid' <-. destruct dir as [|c dir]; [done|].
  rewrite StrFacts.app_cons in Hid'. simpl in *. congruence.
Qed.

(** The paths of the cache, as texts, tell the identity and the kind. *)
Lemma cache_paths_injective id id' :
  (poster_file id = poster_file id' → id = id')
  ∧ (logo_file id = logo_file id' → id = id')
  ∧ poster_file id ≠ logo_file id'.
Proof.
  rewrite !poster_file_cases, !logo_file_cases.
  destruct (Str.startswith "/" id) eqn:Hid, (Str.startswith "/" id') eqn:Hid'.
  all: repeat split.
  all: try (intros H; rewrite <- ?StrFacts.app_assoc in H;
            first [ by apply PathFacts.jpg_is_not_png in H
                  | apply PathFacts.app_inv_tail in H ]).
  all: try done.
  all: try (by apply (inj (String.append _)) in H).
  all: try (by apply under_directory_not_absolute in H).
  all: try (by symmetry in H; apply under_directory_not_absolute in H).
Qed.

Lemma slash_has_no_seam p1 p2 :
  "/" = p1 +:+ p2 → p1 ≠ EmptyString → p2 ≠ EmptyString → False.
Proof.
  intros H H1 H2. destruct p1 as [|a [|b p1]]; [done|..]; cbv in H; inversion H; by subst.
Qed.

Lemma slashless_with_extension id ext :
  Str.contains "/" id = false → Str.contains "/" ext = false →
  Str.contains "/" (id +:+ ext) = false.
Proof.
  intros Hid Hext. apply StrFacts.contains_app_false; [done|done|].
  intros p1 p2 Hp H1 H2. by destruct (slash_has_no_seam p1 p2).
Qed.

Lemma slashless_not_absolute id : Str.contains "/" id = false → Str.startswith "/" id = false.
Proof.
  intros Hid. destruct (Str.startswith "/" id) eqn:E; [|done].
  apply StrFacts.startswith_contains in E. congruence.
Qed.

(** X17. For identities that contain no slash, each cache path is its
    cache directory followed by one file name, the identity with the
    extension, in which there is no slash; two such identities that differ
    give different file names, and a poster path is never a logo path.
    This is about the paths as texts. *)
Theorem cache_files_distinct id id' :
  Str.contains "/" id = false →
  Str.contains "/" id' = false →
  id ≠ id' →
  (poster_file id = "cache/posters/" +:+ id +:+ ".jpg"
   ∧ Str.contains "/" (id +:+ ".jpg") = false)
  ∧ (logo_file id = "cache/logos/" +:+ id +:+ ".png"
     ∧ Str.contains "/" (id +:+ ".png") = false)
  ∧ id +:+ ".jpg" ≠ id' +:+ ".jpg"
  ∧ id +:+ ".png" ≠ id' +:+ ".png"
  ∧ poster_file id ≠ logo_file id'.
Proof.
  intros Hid Hid' Hne.
  pose proof (cache_paths_injective id id') as (_ & _ & Hkinds).
  split; [|split; [|split; [|split; [|exact Hkinds]]]].
  - rewrite poster_file_cases, (slashless_not_absolute id Hid).
    split; [done|by apply slashless_with_extension].
  - rewrite logo_file_cases, (slashless_not_absolute id Hid).
    split; [done|by apply slashless_with_extension].
  - intros H%PathFacts.app_inv_tail. done.
  - intros H%PathFacts.app_inv_tail. done.
Qed.

Module SplitFacts.
Import Str.

Lemma split_from_nonempty sep skip cur s : split_from sep skip cur s ≠ [].
Proof.
  revert skip cur. induction s as [|c s IH]; intros skip cur; simpl; [done|].
  destruct skip; [|apply IH]. destruct (startswith sep (String c s)); [done|apply IH].
Qed.

Lemma join_cons sep x l : l ≠ [] → join sep (x :: l) = x +:+ sep +:+ join sep l.
Proof. by destruct l. Qed.

Lemma startswith_length p s : startswith p s = true → (String.length p ≤ String.length s)%nat.
Proof.
  revert s. induction p as [|a p IH]; intros [|b s]; simpl; try done; try lia.
  destruct (Ascii.eqb a b); [|done]. intros H%IH. lia.
Qed.

Lemma startswith_slice p s :
  startswith p s = true → s = p +:+ slice_from (String.length p) s.
Proof.
  revert s. induction p as [|a p IH]; intros [|b s]; simpl; try done.
  destruct (Ascii.eqb_spec a b) as [->|]; [|done].
  intros H%IH. rewrite StrFacts.app_cons. by f_equal.
Qed.

(** Joining the pieces gives back what was collected and what was still to
    be read, the rest of a separator under way left out. *)
Lemma split_from_join sep skip cur s :
  sep ≠ EmptyString →
  (skip ≤ String.length s)%nat →
  join sep (split_from sep skip cur s) = cur +:+ slice_from skip s.
Proof.
  intros Hsep. revert skip cur. induction s as [|c s IH]; intros skip cur Hskip.
  - destruct skip; [|simpl in Hskip; lia]. simpl. by rewrite StrFacts.app_nil_r.
  - destruct skip as [|k]; simpl.
    + destruct (startswith sep (String c s)) eqn:Hstart.
      * rewrite join_cons by apply split_from_nonempty.
        pose proof (startswith_length _ _ Hstart) as Hlen.
        pose proof (startswith_slice _ _ Hstart) as Hslice.
        destruct sep as [|a sep]; [done|]. simpl in *.
        rewrite IH by lia. rewrite Nat.sub_0_r.
        change (EmptyString +:+ ?x) with x. by rewrite <- Hslice.
      * rewrite IH by lia. simpl. by rewrite StrFacts.app_assoc.
    + apply IH. simpl in Hskip. lia.
Qed.

Lemma comma_has_no_seam p1 p2 :
  "," = p1 +:+ p2 → p1 ≠ EmptyString → p2 ≠ EmptyString → False.
Proof.
  intros H H1 H2. destruct p1 as [|a [|b p1]]; [done|..]; cbv in H; inversion H; by subst.
Qed.

Lemma startswith_char a c s s' :
  startswith (String a EmptyString) (String c s) = startswith (String a EmptyString) (String c s').
Proof. cbn [startswith]. by destruct (Ascii.eqb a c). Qed.

Lemma split_comma_free cur s :
  contains "," cur = false →
  Forall (λ piece, contains "," piece = false) (split_from "," 0 cur s).
Proof.
  revert cur. induction s as [|c s IH]; intros cur Hcur.
  - by constructor.
  - cbn [split_from]. destruct (startswith "," (String c s)) eqn:Hc.
    + constructor; [done|]. by apply IH.
    + apply IH. apply StrFacts.contains_app_false; [done| |].
      * cbn [contains]. rewrite (startswith_char _ _ _ s), Hc. done.
      * intros p1 p2 Hp H1 H2. by destruct (comma_has_no_seam p1 p2).
Qed.

End SplitFacts.

(** X18. The recipients are the pieces of the variable between its commas:
    there is always at least one piece (the empty one when the variable is
    unset or empty), no piece contains a comma, and the pieces joined with
    commas are the variable again, so nothing is trimmed or dropped. *)
Theorem recipients_are_the_pieces int env g :
  load_globals int env = Some g →
  RECIPIENT_EMAILS g ≠ []
  ∧ Forall (λ r, Str.contains "," r = false) (RECIPIENT_EMAILS g)
  ∧ Str.join "," (RECIPIENT_EMAILS g) = getenv_or env "RECIPIENT_EMAILS" EmptyString.
Proof.
  unfold load_globals. intros H.
  destruct (match env !! "SMTP_PORT" with Some s => int s | None => Some 587 end) as [port|];
    [|done].
  injection H as <-. simpl.
  split; [apply SplitFacts.split_from_nonempty|].
  split; [by apply SplitFacts.split_comma_free|].
  unfold Str.split. rewrite SplitFacts.split_from_join; [done|done|lia].
Qed.

(** ** Listings that are not lists of items *)

Section OddListings.

Variable what : bytes → option string.

(** X19. A listing that decodes to an empty or false value of any kind (the
    empty list, but also an empty object, null, zero, the empty text) ends
    the run as no items: one line on the console after the fetch, and
    nothing else. *)
Theorem falsy_listing_ends_run g w w1 listing :
  validate required_vars w = (w, Ret true) →
  get_latest_items g w = (w1, Ret listing) →
  payload_truthy listing = false →
  send_jellyfin_email what g w
  = (add_event (EPrint "No items found or failed to fetch from Jellyfin") w1, Ret tt).
Proof.
  intros Hvalid Hitems Hfalsy. unfold send_jellyfin_email.
  rewrite (bind_returned _ _ _ _ _ Hvalid). cbn [negb].
  rewrite (bind_returned _ _ _ _ _ Hitems). by rewrite Hfalsy.
Qed.

(** X20. A listing that decodes to a true value that is no list (an
    object that wraps the items, say) makes the run raise right after the
    fetch: no image is asked for, no file is looked at, no mail is sent. *)
Theorem non_list_listing_raises g w w1 :
  validate required_vars w = (w, Ret true) →
  get_latest_items g w = (w1, Ret (JOther true)) →
  ∃ e, send_jellyfin_email what g w = (w1, Raise e).
Proof.
  intros Hvalid Hitems. unfold send_jellyfin_email.
  rewrite (bind_returned _ _ _ _ _ Hvalid). cbn [negb].
  rewrite (bind_returned _ _ _ _ _ Hitems). by eexists.
Qed.

End OddListings.

(** * The base URL in the requests of the composer *)

Lemma added_events_grown w w' evs :
  trace w' = (evs ++ trace w)%list → added_events w w' = evs.
Proof.
  intros H. unfold added_events. rewrite H, length_app.
  replace (length evs + length (trace w) - length (trace w))%nat with (length evs) by lia.
  by rewrite take_app_length.
Qed.

Lemma added_events_after P w w' :
  after P w w' → trace w' = (added_events w w' ++ trace w)%list ∧ Forall P (added_events w w').
Proof.
  intros [_ _ _ _ _ _ (evs & Htrace & Hevs)].
  by rewrite (added_events_grown _ _ _ Htrace).
Qed.

(** What was added up to [w1] is still among what was added up to [w2]. *)
Lemma added_events_later P Q w w1 w2 ev :
  after P w w1 → after Q w1 w2 → ev ∈ added_events w w1 → ev ∈ added_events w w2.
Proof.
  intros [H1 _]%added_events_after [H2 _]%added_events_after Hin.
  rewrite (added_events_grown w w2 (added_events w1 w2 ++ added_events w w1)).
  - apply elem_of_app. by right.
  - by rewrite H2, H1 at 1; rewrite app_assoc.
Qed.

Lemma after_bind_first {A B} P (m : M A) (f : A → M B) w :
  (∀ a, keeps P (f a)) → after P (m w).1 ((m ≫= f) w).1.
Proof.
  intros Hf. unfold mbind, M_bind.
  destruct (m w) as [w' [a|e]]; [apply Hf|apply after_refl].
Qed.

Lemma keeps_for_each_in {A S} P (body : A → S → M S) l s :
  (∀ x s, x ∈ l → keeps P (body x s)) → keeps P (for_each body l s).
Proof.
  revert s. induction l as [|x l IH]; intros s Hbody; [apply keeps_ret|].
  simpl. apply keeps_bind; [apply Hbody; left|].
  intros s'. apply IH. intros y s'' Hy. apply Hbody. by right.
Qed.

(** The cache sends no request but the one for the URL it is given. *)
Lemma get_cached_image_keeps_any (P : event → Prop) url path headers :
  (∀ ev, is_get ev = false → P ev) →
  P (EGet url headers) →
  keeps P (get_cached_image url path headers).
Proof.
  intros Hother Hget w. run.
  destruct (fs w !! path) as [n|] eqn:Hpath; simpl; cases.
  all: split; simpl;
    first [ done
          | lia
          | intros p n0 Hp; destruct (decide (path = p)) as [->|];
            [congruence | by rewrite lookup_insert_ne]
          | repeat (apply grown_cons; [|first [exact Hget | by apply Hother]]);
            apply grown_nil ].
Qed.

Section BaseUrl.

Variable what : bytes → option string.

Lemma process_item_asks g base items item st :
  item ∈ items →
  keeps (asks_image_of base items) (process_item what g base item st).
Proof.
  intros Hin. destruct st as [root html]. unfold process_item.
  destruct (item !! "Id") as [id|] eqn:Hlook; [|apply keeps_ret].
  destruct (Str.truthy id) eqn:Htruthy; simpl; [|apply keeps_ret].
  assert (retained_id item = Some id) as Hid by (unfold retained_id; by rewrite Hlook, Htruthy).
  apply keeps_bind; [by apply keeps_emit|]. intros _.
  apply keeps_bind.
  { apply get_cached_image_keeps_any; [by intros []|]. exists item, id. by eauto. }
  intros poster_bytes.
  apply keeps_bind; [apply attach_if_obtained_keeps|]. intros [root1 poster_cid].
  apply keeps_bind.
  { apply get_cached_image_keeps_any; [by intros []|]. exists item, id. by eauto. }
  intros logo_bytes.
  apply keeps_bind; [apply attach_if_obtained_keeps|]. intros [root2 logo_cid].
  apply keeps_ret.
Qed.

Lemma process_item_keeps_any g base item st : keeps (λ _, True) (process_item what g base item st).
Proof.
  eapply keeps_weaken; [|apply (process_item_asks g base [item]); left]. done.
Qed.

(** An item that passes the test of line 119 and whose poster the cache
    does not hold makes the loop ask for the poster under [base]. *)
Lemma process_item_asks_poster g base item st w id :
  retained_id item = Some id →
  fs w !! poster_file id = None →
  EGet (poster_request base id) (auth_headers g)
    ∈ added_events w (process_item what g base item st w).1.
Proof.
  intros Hid Hnone. destruct st as [root html]. unfold process_item.
  unfold retained_id in Hid.
  destruct (item !! "Id") as [id'|]; [|done].
  destruct (Str.truthy id'); [|done]. simplify_eq/=.
  unfold print, emit. unfold mbind at 1. unfold M_bind at 1.
  set (w0 := add_event _ w).
  change (os_path_join POSTER_CACHE_DIR (id +:+ ".jpg")) with (poster_file id).
  change (base +:+ "/Items/" +:+ id +:+ "/Images/Primary?maxWidth=300")
    with (poster_request base id).
  destruct (cache_miss_requests (poster_request base id) (poster_file id) (auth_headers g) w0)
    as [_ (later & Hlater)]; [done|].
  eapply (added_events_later (λ _, True) (λ _, True)).
  - split; try (by destruct (get_cached_image_keeps_any (λ _, True) (poster_request base id)
                               (poster_file id) (auth_headers g) ltac:(done) I w0)).
    exists (later ++ [EGet (poster_request base id) (auth_headers g);
                      EPrint ("Downloading: " +:+ poster_request base id);
                      EExists (poster_file id); processing item id])%list.
    split; [|by apply Forall_forall].
    rewrite Hlater. subst w0. simpl. by rewrite <- !app_assoc.
  - apply after_bind_first. intros poster_bytes.
    apply keeps_bind; [apply attach_if_obtained_keeps|]. intros [root1 poster_cid].
    apply keeps_bind; [by apply get_cached_image_keeps_any|]. intros logo_bytes.
    apply keeps_bind; [apply attach_if_obtained_keeps|]. intros [root2 logo_cid].
    apply keeps_ret.
  - rewrite (added_events_grown _ _
               (later ++ [EGet (poster_request base id) (auth_headers g);
                          EPrint ("Downloading: " +:+ poster_request base id);
                          EExists (poster_file id); processing item id])%list).
    + apply elem_of_app. right. left.
    + rewrite Hlater. subst w0. simpl. by rewrite <- !app_assoc.
Qed.

(** C8. The base on which the composer builds the image URLs is the text
    of the configured listing endpoint that precedes the marker [/Users/]
    (its first occurrence), and the fallback [http://localhost:8096] when
    the endpoint does not contain the marker. Every request the composer
    sends asks for the poster or the logo of one of the first ten items
    under that base, and it does ask for the poster of the first item under
    that base when that item passes the test of line 119 and the cache does
    not hold its poster. *)
Theorem base_url_before_marker g items w :
  ((∃ pre post,
       JELLYFIN_API_URL g = pre +:+ "/Users/" +:+ post
       ∧ jellyfin_base_url (JELLYFIN_API_URL g) = pre
       ∧ ∀ pre' post', JELLYFIN_API_URL g = pre' +:+ "/Users/" +:+ post' →
                       (String.length pre ≤ String.length pre')%nat)
   ∨ ((∀ pre post, JELLYFIN_API_URL g ≠ pre +:+ "/Users/" +:+ post)
      ∧ jellyfin_base_url (JELLYFIN_API_URL g) = "http://localhost:8096"))
  ∧ (∀ url headers,
       EGet url headers ∈ added_events w (compose what g items w).1 →
       ∃ item id,
         item ∈ take 10 items ∧ retained_id item = Some id
         ∧ (url = poster_request (jellyfin_base_url (JELLYFIN_API_URL g)) id
            ∨ url = logo_request (jellyfin_base_url (JELLYFIN_API_URL g)) id))
  ∧ (∀ item rest id,
       items = item :: rest →
       retained_id item = Some id →
       fs w !! poster_file id = None →
       EGet (poster_request (jellyfin_base_url (JELLYFIN_API_URL g)) id) (auth_headers g)
         ∈ added_events w (compose what g items w).1).
Proof.
  split; [apply jellyfin_base_url_cases|]. split.
  - assert (keeps (asks_image_of (jellyfin_base_url (JELLYFIN_API_URL g)) (take 10 items))
              (compose what g items)) as Hkeeps.
    { unfold compose. apply keeps_bind; [|intros [root html]; apply keeps_ret].
      apply keeps_for_each_in. intros item st Hin. by apply process_item_asks. }
    destruct (added_events_after _ _ _ (Hkeeps w)) as [_ Hall].
    intros url headers Hin. rewrite Forall_forall in Hall. exact (Hall _ Hin).
  - intros item rest id -> Hid Hnone. unfold compose.
    change (take 10 (item :: rest)) with (item :: take 9 rest).
    eapply (added_events_later (λ _, True) (λ _, True)); [| |by apply process_item_asks_poster].
    + apply process_item_keeps_any.
    + cbn [for_each]. eapply after_trans.
      * apply (after_bind_first (λ _, True)
                 (process_item what g (jellyfin_base_url (JELLYFIN_API_URL g)) item
                    ([], Html.head (JELLYFIN_WEB_URL g)))
                 (λ st, for_each (process_item what g (jellyfin_base_url (JELLYFIN_API_URL g)))
                          (take 9 rest) st) w).
        intros st. apply keeps_for_each. intros x s. apply process_item_keeps_any.
      * apply (after_bind_first (λ _, True)). intros [root html]. apply keeps_ret.
Qed.

End BaseUrl.

(** ** The further properties at sample inputs *)

Lemma get_latest_items_returns_listing_example :
  http_error {| status_code := 200; content := []; json := Some (JList [Sample.movie; Sample.series]) |}
    = false
  ∧ (get_latest_items Sample.g Sample.media_world).2 = Ret (JList [Sample.movie; Sample.series])
  ∧ trace (get_latest_items Sample.g Sample.media_world).1
    = [EGet (JELLYFIN_API_URL Sample.g) (auth_headers Sample.g)].
Proof.
  split; [reflexivity|].
  apply (get_latest_items_returns_listing Sample.g Sample.media_world
           {| status_code := 200; content := []; json := Some (JList [Sample.movie; Sample.series]) |});
    reflexivity.
Defined.

Lemma cache_hit_is_local_example :
  fs More.cached_world !! "cache/logos/a1.png" = Some (File Sample.png false)
  ∧ (get_cached_image "http://media:8096/Items/a1/Images/Logo?maxWidth=300"
       "cache/logos/a1.png" [] More.cached_world).2 = Ret None
  ∧ requests_made (get_cached_image "http://media:8096/Items/a1/Images/Logo?maxWidth=300"
                     "cache/logos/a1.png" [] More.cached_world).1 = 0%nat.
Proof.
  split; [reflexivity|].
  destruct (cache_hit_is_local "http://media:8096/Items/a1/Images/Logo?maxWidth=300"
              "cache/logos/a1.png" [] More.cached_world (File Sample.png false))
    as (Hres & Hreq & _); [reflexivity|].
  split; [exact Hres|exact Hreq].
Defined.

Lemma unwritable_cache_gives_absent_example :
  fs More.read_only_world !! Sample.poster_path = None
  ∧ creatable More.read_only_world Sample.poster_path = false
  ∧ (get_cached_image Sample.poster_url Sample.poster_path [] More.read_only_world).2 = Ret None
  ∧ fs (get_cached_image Sample.poster_url Sample.poster_path [] More.read_only_world).1 = ∅.
Proof.
  split; [reflexivity|]. split; [reflexivity|].
  destruct (unwritable_cache_gives_absent Sample.poster_url Sample.poster_path []
              More.read_only_world
              {| status_code := 200; content := Sample.png; json := None |})
    as (Hres & Hfs & _); [reflexivity..|].
  split; [exact Hres|exact Hfs].
Defined.

Lemma empty_body_is_cached_example :
  fs (Sample.world Sample.env More.empty_answer) !! Sample.poster_path = None
  ∧ (get_cached_image Sample.poster_url Sample.poster_path []
       (Sample.world Sample.env More.empty_answer)).2 = Ret (Some [])
  ∧ fs (get_cached_image Sample.poster_url Sample.poster_path []
          (Sample.world Sample.env More.empty_answer)).1 !! Sample.poster_path
    = Some (File [] true).
Proof.
  split; [reflexivity|].
  destruct (empty_body_is_cached Sample.poster_url Sample.poster_path []
              (Sample.world Sample.env More.empty_answer)
              {| status_code := 200; content := []; json := None |})
    as (Hres & _ & Hfile & _); [reflexivity..|].
  split; [exact Hres|exact Hfile].
Defined.

Lemma first_missing_setting_is_reported_example :
  required_vars
  = (["JELLYFIN_API_URL"; "JELLYFIN_API_TOKEN"] ++ "SENDER_EMAIL" :: ["SENDER_PASSWORD"; "RECIPIENT_EMAILS"])%list
  ∧ unset (delete "RECIPIENT_EMAILS" (delete "SENDER_EMAIL" Sample.env) !! "SENDER_EMAIL") = true
  ∧ send_jellyfin_email Sample.what Sample.g
      (Sample.world (delete "RECIPIENT_EMAILS" (delete "SENDER_EMAIL" Sample.env))
         Sample.image_answer)
    = (add_event (EPrint ("Error: Environment variable " +:+ "SENDER_EMAIL"
                            +:+ " is required but not set."))
         (Sample.world (delete "RECIPIENT_EMAILS" (delete "SENDER_EMAIL" Sample.env))
            Sample.image_answer),
       Ret tt).
Proof.
  split; [reflexivity|]. split; [reflexivity|].
  apply (first_missing_setting_is_reported Sample.what Sample.g
           (Sample.world (delete "RECIPIENT_EMAILS" (delete "SENDER_EMAIL" Sample.env))
              Sample.image_answer)
           ["JELLYFIN_API_URL"; "JELLYFIN_API_TOKEN"] "SENDER_EMAIL"
           ["SENDER_PASSWORD"; "RECIPIENT_EMAILS"]);
    [reflexivity| |reflexivity].
  repeat constructor.
Defined.

Lemma unrecognised_poster_raises_example :
  retained_id Sample.movie = Some "a1"
  ∧ Sample.what More.garbage = None
  ∧ (process_item Sample.what Sample.g "http://media:8096" Sample.movie ([], EmptyString)
       More.garbage_world).2
    = Raise (TypeError "Could not guess image MIME subtype").
Proof.
  split; [reflexivity|]. split; [reflexivity|].
  rewrite (unrecognised_poster_raises Sample.what Sample.g "http://media:8096" Sample.movie
             [] EmptyString More.garbage_world "a1" More.garbage);
    [vm_compute; reflexivity | reflexivity | vm_compute; reflexivity | discriminate
    | reflexivity].
Defined.

Lemma composing_failure_sends_nothing_example :
  validate required_vars More.garbage_world = (More.garbage_world, Ret true)
  ∧ (send_jellyfin_email Sample.what Sample.g More.garbage_world).2
    = Raise (TypeError "Could not guess image MIME subtype")
  ∧ ∃ evs,
      trace (compose Sample.what Sample.g [Sample.movie; Sample.series]
               (get_latest_items Sample.g More.garbage_world).1).1
      = (evs ++ trace More.garbage_world)%list
      ∧ Forall (λ ev, is_smtp ev = false) evs.
Proof.
  split; [vm_compute; reflexivity|].
  destruct (composing_failure_sends_nothing Sample.what Sample.g More.garbage_world
              (get_latest_items Sample.g More.garbage_world).1
              [Sample.movie; Sample.series]
              (compose Sample.what Sample.g [Sample.movie; Sample.series]
                 (get_latest_items Sample.g More.garbage_world).1).1
              (TypeError "Could not guess image MIME subtype"))
    as [Hrun Hquiet];
    [vm_compute; reflexivity | vm_compute; reflexivity | discriminate
    | vm_compute; reflexivity |].
  split; [|exact Hquiet].
  exact (f_equal snd Hrun).
Defined.

Lemma delivery_failure_is_reported_example :
  smtp_failure More.login_refused_world = Some Login
  ∧ (send_jellyfin_email Sample.what Sample.g More.login_refused_world).2 = Ret tt
  ∧ trace (send_jellyfin_email Sample.what Sample.g More.login_refused_world).1
    = (EPrintExn "Failed to send email: " (SMTPException Login)
         :: failed_session Sample.g More.two_items_message Login
         ++ trace (compose Sample.what Sample.g [Sample.movie; Sample.series]
                     (get_latest_items Sample.g More.login_refused_world).1).1)%list.
Proof.
  split; [reflexivity|].
  exact (delivery_failure_is_reported Sample.what Sample.g More.login_refused_world
           (get_latest_items Sample.g More.login_refused_world).1
           Sample.movie [Sample.series]
           (compose Sample.what Sample.g [Sample.movie; Sample.series]
              (get_latest_items Sample.g More.login_refused_world).1).1
           More.two_items_message Login
           ltac:(vm_compute; reflexivity) ltac:(vm_compute; reflexivity)
           ltac:(vm_compute; reflexivity) ltac:(vm_compute; reflexivity)).
Defined.

Lemma message_has_at_most_20_images_example :
  compose Sample.what Sample.g [Sample.movie; Sample.series] Sample.media_world
  = ((compose Sample.what Sample.g [Sample.movie; Sample.series] Sample.media_world).1,
     Ret More.two_items_message)
  ∧ (length (msg_images More.two_items_message) ≤ 20)%nat.
Proof.
  assert (compose Sample.what Sample.g [Sample.movie; Sample.series] Sample.media_world
          = ((compose Sample.what Sample.g [Sample.movie; Sample.series] Sample.media_world).1,
             Ret More.two_items_message)) as Hrun by (vm_compute; reflexivity).
  split; [exact Hrun|].
  exact (message_has_at_most_20_images Sample.what Sample.g [Sample.movie; Sample.series]
           Sample.media_world _ _ Hrun).
Defined.

Lemma cache_files_distinct_example :
  Str.contains "/" "a1" = false
  ∧ Str.contains "/" "b2" = false
  ∧ poster_file "a1" = "cache/posters/a1.jpg"
  ∧ logo_file "a1" = "cache/logos/a1.png"
  ∧ "a1.jpg" ≠ "b2.jpg"
  ∧ poster_file "a1" ≠ logo_file "b2".
Proof.
  split; [reflexivity|]. split; [reflexivity|].
  destruct (cache_files_distinct "a1" "b2") as ((Hp & _) & (Hl & _) & Hjpg & _ & Hkinds);
    [reflexivity|reflexivity|discriminate|].
  split; [exact Hp|]. split; [exact Hl|]. split; [exact Hjpg|exact Hkinds].
Defined.

Lemma base_url_before_marker_example :
  jellyfin_base_url (JELLYFIN_API_URL Sample.g) = "http://media:8096"
  ∧ retained_id Sample.movie = Some "a1"
  ∧ fs Sample.media_world !! poster_file "a1" = None
  ∧ EGet "http://media:8096/Items/a1/Images/Primary?maxWidth=300" (auth_headers Sample.g)
      ∈ added_events Sample.media_world
          (compose Sample.what Sample.g [Sample.movie; Sample.series] Sample.media_world).1.
Proof.
  split; [vm_compute; reflexivity|]. split; [reflexivity|]. split; [reflexivity|].
  destruct (base_url_before_marker Sample.what Sample.g [Sample.movie; Sample.series]
              Sample.media_world) as (_ & _ & Hasks).
  exact (Hasks Sample.movie [Sample.series] "a1" eq_refl eq_refl eq_refl).
Defined.

Lemma recipients_are_the_pieces_example :
  RECIPIENT_EMAILS <$> load_globals (λ _, None) Sample.env
    = Some ["a@example.org"; "b@example.org"]
  ∧ Str.join "," ["a@example.org"; "b@example.org"] = "a@example.org,b@example.org".
Proof.
  split; [reflexivity|].
  destruct (load_globals (λ _, None) Sample.env) as [g|] eqn:Hload; [|discriminate Hload].
  destruct (recipients_are_the_pieces (λ _, None) Sample.env g Hload) as (_ & _ & Hjoin).
  injection Hload as <-. exact Hjoin.
Defined.

Lemma falsy_listing_ends_run_example :
  validate required_vars (Sample.world Sample.env More.null_answer)
    = (Sample.world Sample.env More.null_answer, Ret true)
  ∧ (get_latest_items Sample.g (Sample.world Sample.env More.null_answer)).2 = Ret (JOther false)
  ∧ send_jellyfin_email Sample.what Sample.g (Sample.world Sample.env More.null_answer)
    = (add_event (EPrint "No items found or failed to fetch from Jellyfin")
         (get_latest_items Sample.g (Sample.world Sample.env More.null_answer)).1,
       Ret tt).
Proof.
  split; [reflexivity|]. split; [reflexivity|].
  apply (falsy_listing_ends_run Sample.what Sample.g (Sample.world Sample.env More.null_answer)
           _ (JOther false)); reflexivity.
Defined.

Lemma non_list_listing_raises_example :
  validate required_vars (Sample.world Sample.env More.object_answer)
    = (Sample.world Sample.env More.object_answer, Ret true)
  ∧ (get_latest_items Sample.g (Sample.world Sample.env More.object_answer)).2 = Ret (JOther true)
  ∧ ∃ e, send_jellyfin_email Sample.what Sample.g (Sample.world Sample.env More.object_answer)
         = ((get_latest_items Sample.g (Sample.world Sample.env More.object_answer)).1, Raise e).
Proof.
  split; [reflexivity|]. split; [reflexivity|].
  apply (non_list_listing_raises Sample.what Sample.g (Sample.world Sample.env More.object_answer));
    reflexivity.
Defined.

(** Ten items without identity leave no place for the eleventh. *)
Example blanks_take_the_places :
  msg_html <$>
    match (compose Sample.what Sample.g (replicate 10 Sample.blank ++ [Sample.movie])
             Sample.media_world).2 with
    | Ret msg => Some msg
    | Raise _ => None
    end
  = Some (Html.head (JELLYFIN_WEB_URL Sample.g) +:+ Html.tail).
Proof. vm_compute. reflexivity. Qed.
